(** * env_setup.py: the greeting generator of the uber test project

    A shallow embedding of [test-project/scripts/env_setup.py] together with
    the part of CPython 3.11's [argparse] that the script drives: an
    [ArgumentParser] holding the default [-h/--help] action and the
    [--name] store action, used through [parse_known_args].

    Conventions of the model.
    - A Python [str] is a Rocq [string]; a character is the code point of
      the same number, so the model covers the strings whose code points
      are below 256.  On this range [str.isspace] and the regular
      expression class [\d] are the finite tables written out below.
    - A [process] is what the interpreter has set up when [main] starts:
      [os.environ], the characters that the encoder of [sys.stdout]
      accepts, and the size of the terminal.  [print] to [sys.stdout]
      raises [UnicodeEncodeError] on a character the encoder does not
      accept; the characters of ASCII are always accepted.
    - [sys.stdout] and [sys.stderr] are lists of writes.  The usage and
      the help message, which argparse lays out to the width of the
      terminal, are symbolic writes that carry what the width is
      computed from: the variables COLUMNS and LINES and the terminal.
    - Exceptions and the two streams are threaded by a small state and
      error monad; the [while] loop of [_parse_known_args] takes fuel and
      is shown never to exhaust it.

    Plan of the file: the model ([Str], [argparse], [env_setup]); a
    list-recursive reading of the parsing loop ([flat]); the proof that
    the loop agrees with it ([parse_known_args_flat]); what a run can do
    ([run_cases]); lemmas on the splitting, on the parsing and on a run;
    the claims C1 to C10; further properties of the splitting, of the
    parsing and of a run. *)

From Stdlib Require Import String Ascii List ZArith Lia Bool.
From stdpp Require Import base option list gmap strings.
Import ListNotations.
Open Scope string_scope.
Open Scope list_scope.

(** ** Python strings *)

Module Str.

(** [str.isspace] on one character, for code points below 256:
    U+0009..U+000D, U+001C..U+001F, U+0020, U+0085 and U+00A0. *)
Definition isspace (c : ascii) : bool :=
  let n := nat_of_ascii c in
  ((9 <=? n)%nat && (n <=? 13)%nat) || ((28 <=? n)%nat && (n <=? 32)%nat)
  || (n =? 133)%nat || (n =? 160)%nat.

(** The class [\d] of [re] on [str] patterns: the decimal digits, which
    below code point 256 are [0] to [9]. *)
Definition isdecimal (c : ascii) : bool :=
  let n := nat_of_ascii c in (48 <=? n)%nat && (n <=? 57)%nat.

Definition eqb (s t : string) : bool := bool_decide (s = t).

(** The strings of the line feed and of the double quote. *)
Definition newline : string := String "010"%char EmptyString.
Definition dquote : string := String "034"%char EmptyString.

(** [c in s] for a one-character [c]. *)
Fixpoint contains (c : ascii) (s : string) : bool :=
  match s with
  | EmptyString => false
  | String d s' => bool_decide (c = d) || contains c s'
  end.

(** [s.startswith(p)]. *)
Definition startswith (s p : string) : bool := String.prefix p s.

(** [s.split(c, 1)] when [c in s]: the text before the first [c] and the
    text after it; [None] when [c] does not occur. *)
Fixpoint split_once (c : ascii) (s : string) : option (string * string) :=
  match s with
  | EmptyString => None
  | String d s' =>
      if bool_decide (c = d) then Some (EmptyString, s')
      else match split_once c s' with
           | Some (before, after) => Some (String d before, after)
           | None => None
           end
  end.

(** [s[n:]]. *)
Fixpoint drop (n : nat) (s : string) : string :=
  match n, s with
  | O, _ => s
  | S n', String _ s' => drop n' s'
  | S _, EmptyString => EmptyString
  end.

(** [s[:n]]. *)
Fixpoint take (n : nat) (s : string) : string :=
  match n, s with
  | S n', String c s' => String c (take n' s')
  | _, _ => EmptyString
  end.

(** [str.split()] without a separator: the maximal runs of characters
    that are not whitespace, in order.  [word] is the run read so far. *)
Fixpoint split_from (word : string) (s : string) : list string :=
  match s with
  | EmptyString =>
      match word with EmptyString => [] | _ => [word] end
  | String c s' =>
      if isspace c then
        match word with
        | EmptyString => split_from EmptyString s'
        | _ => word :: split_from EmptyString s'
        end
      else split_from (word ++ String c EmptyString) s'
  end.

Definition split (s : string) : list string := split_from EmptyString s.

(** No character of [s] is whitespace. *)
Definition nospace (s : string) : bool :=
  forallb (fun c => negb (isspace c)) (list_ascii_of_string s).

(** [all(c.isdecimal() for c in s)]. *)
Definition all_decimal (s : string) : bool :=
  forallb isdecimal (list_ascii_of_string s).

End Str.

(** ** argparse *)

Module argparse.

(** The messages argparse formats; the comment gives the format string
    of each. *)
Inductive message : Type :=
| expected_one_argument
    (* 'expected one argument' *)
| expected_arguments (n : nat)
    (* 'expected %s argument' / 'expected %s arguments' *)
| ignored_explicit_argument (explicit_arg : string)
    (* 'ignored explicit argument %r' *)
| ambiguous_option (option : string) (matches : list string)
    (* 'ambiguous option: %(option)s could match %(matches)s',
       the matches joined by ', ' *)
| unexpected_option_string (option_string : string)
    (* 'unexpected option string: %s' *)
| argument (argument_name : string) (m : message).
    (* 'argument %(argument_name)s: %(message)s', str(ArgumentError) *)

(** The two actions registered in the parser: the [_HelpAction] that
    every [ArgumentParser()] adds, and the [_StoreAction] of
    [add_argument('--name', type=str, ...)]. *)
Inductive Action : Type := _HelpAction | _StoreAction.

#[global] Instance Action_eq_dec : EqDecision Action.
Proof. solve_decision. Defined.

Inductive exn : Type :=
| ArgumentError (action : Action) (m : message)
| SystemExit (status : Z)
| UnicodeEncodeError
| ValueError
| IndexError
| KeyError.

(** What [shutil.get_terminal_size] consults when a [HelpFormatter] is
    made: [os.environ['COLUMNS']] and [os.environ['LINES']], and what
    [os.get_terminal_size] reports for standard output ([None] when it
    raises). *)
Record terminal_size : Type :=
  { COLUMNS : option string; LINES : option string;
    tty : option (nat * nat) }.

(** A piece of text written to a stream.  The usage and the help
    message are laid out to the width of the terminal: they stay
    symbolic, and carry what the width is computed from.  Equal writes
    stand for equal texts; nothing is said of the texts of two writes
    that differ. *)
Inductive write : Type :=
| Text (s : string)
| format_usage (size : terminal_size)
| format_help (size : terminal_size)
| error_text (m : message)
    (* '%(prog)s: error: %(message)s\n' *)
| traceback (e : exn).

(** The process as the interpreter has set it up when [main] starts:
    [os.environ]; which characters above U+007F the encoder of
    [sys.stdout] accepts, its error handler being 'strict' (the
    interpreter takes the encoding from PYTHONIOENCODING or from the
    locale; the encodings it can take all encode U+0000..U+007F); and
    what [os.get_terminal_size] reports for standard output.
    [sys.argv[0]] is taken to name the script, env_setup.py, as the
    script's own message on standard error does. *)
Record process : Type :=
  { os_environ : gmap string string;
    stdout_encodes : ascii -> bool;
    terminal : option (nat * nat) }.

Record io : Type :=
  { proc : process; stdout : list write; stderr : list write }.

(** The streams are empty when the process starts. *)
Definition start (p : process) : io :=
  {| proc := p; stdout := []; stderr := [] |}.

(** The start of a process with an empty environment, on which the
    functions that write nothing can be run. *)
Definition io0 : io :=
  start {| os_environ := ∅; stdout_encodes := fun _ => false;
           terminal := None |}.

Inductive result (A : Type) : Type :=
| Return (a : A)
| Raise (e : exn)
| OutOfFuel.
Arguments Return {A} a.
Arguments Raise {A} e.
Arguments OutOfFuel {A}.

(** A computation reads and extends the two streams and returns, raises
    or runs out of fuel. *)
Definition M (A : Type) : Type := io -> io * result A.

Definition ret {A} (a : A) : M A := fun s => (s, Return a).
Definition raise {A} (e : exn) : M A := fun s => (s, Raise e).
Definition out_of_fuel {A} : M A := fun s => (s, OutOfFuel).
Definition bind {A B} (m : M A) (k : A -> M B) : M B :=
  fun s =>
    match m s with
    | (s', Return a) => k a s'
    | (s', Raise e) => (s', Raise e)
    | (s', OutOfFuel) => (s', OutOfFuel)
    end.

Notation "x <- m ;; k" := (bind m (fun x => k))
  (at level 100, m at next level, right associativity).
Notation "m ;;; k" := (bind m (fun _ => k))
  (at level 100, right associativity).

(** [try: m except ArgumentError as err: handler(err)]. *)
Definition try_ArgumentError {A} (m : M A)
    (handler : Action -> message -> M A) : M A :=
  fun s =>
    match m s with
    | (s', Raise (ArgumentError a msg)) => handler a msg s'
    | r => r
    end.

Definition write_stdout (w : write) : M unit :=
  fun s => ({| proc := proc s; stdout := stdout s ++ [w];
               stderr := stderr s |}, Return tt).
Definition write_stderr (w : write) : M unit :=
  fun s => ({| proc := proc s; stdout := stdout s;
               stderr := stderr s ++ [w] |}, Return tt).

(** *** The parser built by [main] *)

Definition prefix_chars : string := "-".

Definition option_strings (action : Action) : list string :=
  match action with
  | _HelpAction => ["-h"; "--help"]
  | _StoreAction => ["--name"]
  end.

(** [action.nargs]: [None] for the store action, [0] for help. *)
Definition nargs (action : Action) : option nat :=
  match action with
  | _HelpAction => Some 0
  | _StoreAction => None
  end.

(** The dict [parser._option_string_actions], in insertion order. *)
Definition _option_string_actions : list (string * Action) :=
  [("-h", _HelpAction); ("--help", _HelpAction); ("--name", _StoreAction)].

(** [option_string in d] and [d[option_string]]. *)
Fixpoint dict_get {V} (d : list (string * V)) (k : string) : option V :=
  match d with
  | [] => None
  | (k', v) :: d' => if Str.eqb k' k then Some v else dict_get d' k
  end.

(** [_get_action_name]: the option strings joined by '/'. *)
Definition _get_action_name (action : Action) : string :=
  String.concat "/" (option_strings action).

(** What an attribute of the namespace can hold here. *)
Inductive value : Type :=
| VNone
| VStr (s : string)
| VList (l : list string).

(** The namespace has the one attribute [name]; the help action has
    [dest=SUPPRESS] and leaves none. *)
Record Namespace : Type := { name : value }.

(** *** Exiting methods *)

(** [shutil.get_terminal_size()], as far as its inputs. *)
Definition get_terminal_size : M terminal_size :=
  fun s =>
    (s, Return {| COLUMNS := os_environ (proc s) !! "COLUMNS";
                  LINES := os_environ (proc s) !! "LINES";
                  tty := terminal (proc s) |}).

(** [parser.print_usage(sys.stderr)] and [parser.print_help()], which
    writes to [sys.stdout]; both texts are ASCII, which every stream
    encodes. *)
Definition print_usage_stderr : M unit :=
  size <- get_terminal_size ;; write_stderr (format_usage size).
Definition print_help : M unit :=
  size <- get_terminal_size ;; write_stdout (format_help size).

(** [parser.exit(status, message)]. *)
Definition exit {A} (status : Z) (message : option write) : M A :=
  match message with
  | Some w => write_stderr w ;;; raise (SystemExit status)
  | None => raise (SystemExit status)
  end.

(** [parser.error(message)]. *)
Definition error {A} (m : message) : M A :=
  print_usage_stderr ;;; exit 2 (Some (error_text m)).

(** *** Recognising one argument string *)

(** [(action, option_string, explicit_arg)]. *)
Definition option_tuple : Type := option Action * string * option string.

Definition _get_option_tuples (option_string : string)
  : M (list option_tuple) :=
  let chars := prefix_chars in
  match option_string with
  | String c0 (String c1 _) =>
      if Str.contains c0 chars && Str.contains c1 chars then
        (* allow_abbrev is True *)
        let '(option_prefix, explicit_arg) :=
          match Str.split_once "=" option_string with
          | Some (option_prefix, explicit_arg) =>
              (option_prefix, Some explicit_arg)
          | None => (option_string, None)
          end in
        ret (flat_map
               (fun '(option_string, action) =>
                  if Str.startswith option_string option_prefix
                  then [(Some action, option_string, explicit_arg)]
                  else [])
               _option_string_actions)
      else if Str.contains c0 chars && negb (Str.contains c1 chars) then
        let option_prefix := option_string in
        let short_option_prefix := Str.take 2 option_string in
        let short_explicit_arg := Str.drop 2 option_string in
        ret (flat_map
               (fun '(option_string, action) =>
                  if Str.eqb option_string short_option_prefix
                  then [(Some action, option_string, Some short_explicit_arg)]
                  else if Str.startswith option_string option_prefix
                  then [(Some action, option_string, None)]
                  else [])
               _option_string_actions)
      else error (unexpected_option_string option_string)
  | _ => raise IndexError
  end.

(** [s] without its last character when that is a newline: where the
    [$] of a pattern may match. *)
Fixpoint before_final_newline (s : string) : string :=
  match s with
  | EmptyString => EmptyString
  | String c EmptyString =>
      if bool_decide (c = "010"%char) then EmptyString else s
  | String c s' => String c (before_final_newline s')
  end.

(** [parser._negative_number_matcher.match(s)] for the pattern
    '^-\d+$|^-\d*\.\d+$'. *)
Definition _negative_number_matcher (s : string) : bool :=
  match s with
  | String "-" rest =>
      let body := before_final_newline rest in
      (negb (Str.eqb body EmptyString) && Str.all_decimal body)
      || match Str.split_once "." body with
         | Some (whole, frac) =>
             Str.all_decimal whole
             && negb (Str.eqb frac EmptyString) && Str.all_decimal frac
         | None => false
         end
  | _ => false
  end.

(** [parser._has_negative_number_optionals]: no option string of this
    parser looks like a negative number, so the list is empty. *)
Definition _has_negative_number_optionals : bool := false.

Definition _parse_optional (arg_string : string)
  : M (option option_tuple) :=
  match arg_string with
  (* an empty string was meant to be a positional *)
  | EmptyString => ret None
  | String c0 _ =>
      (* no prefix character: a positional *)
      if negb (Str.contains c0 prefix_chars) then ret None else
      (* the option string is present in the parser *)
      match dict_get _option_string_actions arg_string with
      | Some action => ret (Some (Some action, arg_string, None))
      | None =>
      (* a single character: a positional *)
      if (String.length arg_string =? 1)%nat then ret None else
      (* the option string before the "=" is present *)
      match
        match Str.split_once "=" arg_string with
        | Some (option_string, explicit_arg) =>
            match dict_get _option_string_actions option_string with
            | Some action =>
                Some (Some action, option_string, Some explicit_arg)
            | None => None
            end
        | None => None
        end
      with
      | Some tup => ret (Some tup)
      | None =>
      (* all prefixes of the option string *)
      option_tuples <- _get_option_tuples arg_string ;;
      match option_tuples with
      | _ :: _ :: _ =>
          error (ambiguous_option arg_string
                   (map (fun '(_, option_string, _) => option_string)
                        option_tuples))
      | [option_tuple] => ret (Some option_tuple)
      | [] =>
      (* it looks like a negative number: a positional *)
      if _negative_number_matcher arg_string
         && negb _has_negative_number_optionals then ret None else
      (* it contains a space: a positional *)
      if Str.contains " " arg_string then ret None else
      (* meant to be an optional, but there is no such option *)
      ret (Some (None, arg_string, None))
      end end end
  end.

(** [_get_nargs_pattern] of an optional action is '(A)' for
    [nargs=None] and '(' + 'A' * n + ')' for [nargs=n]; [_match_argument]
    matches it at the start of the pattern and returns the length of the
    group. *)
Definition _match_argument (action : Action) (arg_strings_pattern : string)
  : M nat :=
  match nargs action with
  | None =>
      if Str.startswith arg_strings_pattern "A" then ret 1
      else raise (ArgumentError action expected_one_argument)
  | Some n =>
      if Str.startswith arg_strings_pattern
           (string_of_list_ascii (repeat "A"%char n))
      then ret n
      else raise (ArgumentError action (expected_arguments n))
  end.

(** *** Value conversion *)

(** [arg_strings.remove('--')], ignoring the [ValueError]. *)
Fixpoint remove_first (x : string) (l : list string) : list string :=
  match l with
  | [] => []
  | y :: l' => if Str.eqb y x then l' else y :: remove_first x l'
  end.

(** [_get_value]: the type function is [str] ([type=str], and the
    default [type=None] of help), the identity on a [str]. *)
Definition _get_value (action : Action) (arg_string : string) : string :=
  arg_string.

(** [_get_values]; of its branches only those for [nargs=None] and an
    integer [nargs] apply to the two actions.  [choices] is [None], so
    [_check_value] does nothing. *)
Definition _get_values (action : Action) (arg_strings : list string)
  : value :=
  let arg_strings := remove_first "--" arg_strings in
  match nargs action, arg_strings with
  | None, [arg_string] => VStr (_get_value action arg_string)
  | _, _ => VList (map (_get_value action) arg_strings)
  end.

(** *** The parsing loop of [_parse_known_args] *)

(** [min(l)] and [max(l)] on a list of indices; [None] where Python
    raises [ValueError] on an empty sequence. *)
Definition list_min (l : list nat) : option nat :=
  match l with
  | [] => None
  | x :: l' => Some (fold_left Nat.min l' x)
  end.

Definition list_max (l : list nat) : option nat :=
  match l with
  | [] => None
  | x :: l' => Some (fold_left Nat.max l' x)
  end.

(** The dict [option_string_indices] keeps its keys in insertion order. *)
Fixpoint indices_get (d : list (nat * option_tuple)) (i : nat)
  : option option_tuple :=
  match d with
  | [] => None
  | (j, t) :: d' => if (j =? i)%nat then Some t else indices_get d' i
  end.

(** The first loop of [_parse_known_args]: [option_string_indices] and
    [arg_strings_pattern], which has an 'O' where there is an option, an
    'A' where there is an argument and a '-' at the first '--'. *)
Fixpoint scan_arg_strings (i : nat) (arg_strings : list string)
  : M (list (nat * option_tuple) * string) :=
  match arg_strings with
  | [] => ret ([], EmptyString)
  | arg_string :: rest =>
      if Str.eqb arg_string "--" then
        (* all args after -- are non-options *)
        ret ([], String "-"
                   (string_of_list_ascii (repeat "A"%char (length rest))))
      else
        option_tuple <- _parse_optional arg_string ;;
        r <- scan_arg_strings (S i) rest ;;
        let '(option_string_indices, pattern) := r in
        match option_tuple with
        | None => ret (option_string_indices, String "A" pattern)
        | Some t => ret ((i, t) :: option_string_indices, String "O" pattern)
        end
  end.

(** [(action, args, option_string)]. *)
Definition action_tuple : Type := Action * list string * string.

(** The parser has no positional action, so [_match_arguments_partial]
    returns no count and [consume_positionals] takes no action and
    returns its [start_index]. *)
Definition consume_positionals (start_index : nat) : nat := start_index.

Section parse_known_args.

Variable arg_strings : list string.
Variable option_string_indices : list (nat * option_tuple).
Variable arg_strings_pattern : string.

(** [take_action]: no action is in a mutually exclusive group;
    [_StoreAction.__call__] sets the attribute, [_HelpAction.__call__]
    prints the help and exits. *)
Definition take_action (namespace : Namespace) (action : Action)
    (argument_strings : list string) (option_string : string)
  : M Namespace :=
  let argument_values := _get_values action argument_strings in
  match action with
  | _StoreAction => ret {| name := argument_values |}
  | _HelpAction => print_help ;;; exit 0 None
  end.

Fixpoint take_actions (namespace : Namespace)
    (action_tuples : list action_tuple) : M Namespace :=
  match action_tuples with
  | [] => ret namespace
  | (action, args, option_string) :: rest =>
      namespace <- take_action namespace action args option_string ;;
      take_actions namespace rest
  end.

(** The last branch of the [while True] of [consume_optional]: there is
    no explicit argument, the option's arguments are the following
    strings. *)
Definition match_following (start_index : nat) (action : Action)
    (option_string : string) (action_tuples : list action_tuple)
  : M (nat * list action_tuple) :=
  let start := start_index + 1 in
  let selected_patterns := Str.drop start arg_strings_pattern in
  arg_count <- _match_argument action selected_patterns ;;
  let stop := start + arg_count in
  let args := take arg_count (drop start arg_strings) in
  ret (stop, action_tuples ++ [(action, args, option_string)]).

(** The [while True] of [consume_optional] from an iteration that has an
    explicit argument; an iteration goes round again only with a shorter
    explicit argument. *)
Fixpoint match_explicit (explicit_arg : string) (start_index : nat)
    (action : Action) (option_string : string)
    (action_tuples : list action_tuple) {struct explicit_arg}
  : M (nat * list action_tuple) :=
  arg_count <- _match_argument action "A" ;;
  let chars := prefix_chars in
  let otherwise : M (nat * list action_tuple) :=
    (* the action expects exactly one argument *)
    if (arg_count =? 1)%nat then
      let stop := start_index + 1 in
      let args := [explicit_arg] in
      ret (stop, action_tuples ++ [(action, args, option_string)])
    (* the option did not use the explicit argument *)
    else raise (ArgumentError action (ignored_explicit_argument explicit_arg))
  in
  if (arg_count =? 0)%nat then
    match String.get 1 option_string with
    | None => raise IndexError
    | Some c1 =>
        if negb (Str.contains c1 chars) && negb (Str.eqb explicit_arg EmptyString)
        then
          (* a single-dash option that takes no argument: parse more
             single-dash options out of the tail of the option string *)
          let action_tuples := action_tuples ++ [(action, [], option_string)] in
          match option_string, explicit_arg with
          | String char _, String c new_explicit_arg =>
              let option_string' := String char (String c EmptyString) in
              match dict_get _option_string_actions option_string' with
              | Some action' =>
                  match new_explicit_arg with
                  | EmptyString =>
                      match_following start_index action' option_string'
                        action_tuples
                  | _ =>
                      match_explicit new_explicit_arg start_index action'
                        option_string' action_tuples
                  end
              | None =>
                  raise (ArgumentError action
                           (ignored_explicit_argument explicit_arg))
              end
          | _, _ => raise IndexError
          end
        else otherwise
    end
  else otherwise.

Definition consume_optional (start_index : nat) (extras : list string)
    (namespace : Namespace) : M (nat * list string * Namespace) :=
  match indices_get option_string_indices start_index with
  | None => raise KeyError
  | Some (None, _, _) =>
      (* no optional action was found: skip it *)
      match arg_strings !! start_index with
      | Some arg_string => ret (start_index + 1, extras ++ [arg_string], namespace)
      | None => raise IndexError
      end
  | Some (Some action, option_string, explicit_arg) =>
      r <- match explicit_arg with
           | Some explicit_arg =>
               match_explicit explicit_arg start_index action option_string []
           | None => match_following start_index action option_string []
           end ;;
      let '(stop, action_tuples) := r in
      namespace <- take_actions namespace action_tuples ;;
      ret (stop, extras, namespace)
  end.

Definition max_option_string_index : Z :=
  match list_max (map fst option_string_indices) with
  | Some i => Z.of_nat i
  | None => (-1)%Z
  end.

(** [while start_index <= max_option_string_index], with the state the
    loop changes. *)
Fixpoint consume_loop (fuel : nat) (start_index : nat)
    (extras : list string) (namespace : Namespace)
  : M (nat * list string * Namespace) :=
  match fuel with
  | O => out_of_fuel
  | S fuel =>
      if (Z.of_nat start_index <=? max_option_string_index)%Z then
        match list_min (List.filter (fun index => (start_index <=? index)%nat)
                                    (map fst option_string_indices)) with
        | None => raise ValueError
        | Some next_option_string_index =>
            (* consume any Positionals preceding the next option *)
            let '(continue, start_index) :=
              if negb (start_index =? next_option_string_index)%nat then
                let positionals_end_index := consume_positionals start_index in
                if (start_index <? positionals_end_index)%nat
                then (true, positionals_end_index)
                else (false, positionals_end_index)
              else (false, start_index) in
            if continue : bool then
              consume_loop fuel start_index extras namespace
            else
              (* not at the index of an option string: extra arguments *)
              let '(extras, start_index) :=
                match indices_get option_string_indices start_index with
                | None =>
                    (extras ++ take (next_option_string_index - start_index)
                                 (drop start_index arg_strings),
                     next_option_string_index)
                | Some _ => (extras, start_index)
                end in
              (* consume the next optional and any arguments for it *)
              r <- consume_optional start_index extras namespace ;;
              let '(start_index, extras, namespace) := r in
              consume_loop fuel start_index extras namespace
        end
      else ret (start_index, extras, namespace)
  end.

End parse_known_args.

Definition _parse_known_args (arg_strings : list string)
    (namespace : Namespace) : M (Namespace * list string) :=
  r <- scan_arg_strings 0 arg_strings ;;
  let '(option_string_indices, arg_strings_pattern) := r in
  r <- consume_loop arg_strings option_string_indices arg_strings_pattern
         (S (length arg_strings)) 0 [] namespace ;;
  let '(start_index, extras, namespace) := r in
  (* consume any positionals following the last Optional *)
  let stop_index := consume_positionals start_index in
  (* the strings that were not consumed are extras *)
  let extras := extras ++ drop stop_index arg_strings in
  (* no action is required and no default is a string *)
  ret (namespace, extras).

(** [parser.parse_known_args(args)]: the namespace starts with the
    default [name=None]; [exit_on_error] is True. *)
Definition parse_known_args (args : list string)
  : M (Namespace * list string) :=
  let namespace := {| name := VNone |} in
  try_ArgumentError (_parse_known_args args namespace)
    (fun action m => error (argument (_get_action_name action) m)).

End argparse.

(** ** The script *)

Module env_setup.
Import argparse.

(** [bool(v)] for what the namespace holds. *)
Definition truthy (v : value) : bool :=
  match v with
  | VNone => false
  | VStr s => negb (Str.eqb s EmptyString)
  | VList l => negb (bool_decide (l = []))
  end.

(** [repr] of a [str] made of printable ASCII characters other than the
    quote and the backslash.  It is reached only to format a list that
    is not empty, which parsing never leaves in [args.name]. *)
Definition repr (s : string) : string := ("'" ++ s ++ "'")%string.

(** [format(v)], the replacement field of an f-string. *)
Definition format (v : value) : string :=
  match v with
  | VNone => "None"
  | VStr s => s
  | VList l => ("[" ++ String.concat ", " (map repr l) ++ "]")%string
  end.

(** The encoder of [sys.stdout] accepts every character of [s]. *)
Definition encodable (p : process) (s : string) : bool :=
  forallb (fun c => (nat_of_ascii c <? 128)%nat || stdout_encodes p c)
    (list_ascii_of_string s).

(** [print(s)]: the text and the newline go to [sys.stdout], whose
    encoder raises [UnicodeEncodeError] on a character it does not
    accept, before anything of [s] is written. *)
Definition print_stdout (s : string) : M unit :=
  fun st =>
    if encodable (proc st) s
    then write_stdout (Text (s ++ Str.newline)%string) st
    else raise UnicodeEncodeError st.

(** [print(s, file=sys.stderr)]: the error handler of [sys.stderr] is
    'backslashreplace', so that its encoder never raises. *)
Definition print_stderr (s : string) : M unit :=
  write_stderr (Text (s ++ Str.newline)%string).

(** [os.environ.get(key, default)]. *)
Definition os_environ_get (key default_value : string) : M string :=
  fun st => (st, Return (default default_value (os_environ (proc st) !! key))).

Definition default_greeting : string := "Hello from the env_setup.py script!".

(** The line printed for a greeting, without its newline. *)
Definition greeting_line (greeting : string) : string :=
  ("DEMO_GREETING=" ++ Str.dquote ++ greeting ++ Str.dquote)%string.

Definition main : M unit :=
  (* Default greeting *)
  let greeting := default_greeting in
  (* Get args from environment variable and parse them *)
  global_args_str <-
    os_environ_get "UBER_GLOBAL_COMMAND_ARGS" EmptyString ;;
  greeting <-
    (if negb (Str.eqb global_args_str EmptyString) then
       r <- parse_known_args (Str.split global_args_str) ;;
       let '(args, unknown) := r in
       if truthy (name args)
       then ret ("Hello, " ++ format (name args) ++ "!")%string
       else ret greeting
     else ret greeting) ;;
  print_stdout (greeting_line greeting) ;;;
  print_stderr "env_setup.py: Setting DEMO_GREETING".

(** What the caller of the process observes. *)
Record CompletedProcess : Type :=
  { out : list write; err : list write; returncode : Z }.

(** Running the script: [main()] returns and the interpreter exits with
    status 0, or [SystemExit] carries the status, or another exception
    reaches the top level, where the interpreter prints the traceback
    and exits with status 1.  [None] when the model lacks fuel. *)
Definition run (p : process) : option CompletedProcess :=
  match main (start p) with
  | (s, Return _) =>
      Some {| out := stdout s; err := stderr s; returncode := 0 |}
  | (s, Raise (SystemExit status)) =>
      Some {| out := stdout s; err := stderr s; returncode := status |}
  | (s, Raise e) =>
      Some {| out := stdout s; err := stderr s ++ [traceback e];
              returncode := 1 |}
  | (_, OutOfFuel) => None
  end.

(** The environment that holds only [UBER_GLOBAL_COMMAND_ARGS]. *)
Definition with_args (v : string) : gmap string string :=
  {[ "UBER_GLOBAL_COMMAND_ARGS" := v ]}.

(** Two processes to run the script in, away from a terminal: one whose
    standard output encodes every character, as with UTF-8, and one
    whose standard output encodes ASCII only. *)
Definition utf8_process (environ : gmap string string) : process :=
  {| os_environ := environ; stdout_encodes := fun _ => true;
     terminal := None |}.
Definition ascii_process (environ : gmap string string) : process :=
  {| os_environ := environ; stdout_encodes := fun _ => false;
     terminal := None |}.

End env_setup.

(** ** A list-recursive reading of the parsing loop

    [_parse_known_args] walks the argument strings by index.  The same
    walk over the list of strings paired with their classes is easier to
    reason about; the two are proved to agree further down. *)

Module flat.
Import argparse.

(** What the first loop of [_parse_known_args] records for one string:
    the letter of the pattern and, for an 'O', the option tuple. *)
Inductive cls : Type :=
| cA
| cDash
| cO (t : option_tuple).

Fixpoint classify (arg_strings : list string) : M (list cls) :=
  match arg_strings with
  | [] => ret []
  | arg_string :: rest =>
      if Str.eqb arg_string "--" then ret (cDash :: repeat cA (length rest))
      else
        option_tuple <- _parse_optional arg_string ;;
        cs <- classify rest ;;
        ret (match option_tuple with None => cA | Some t => cO t end :: cs)
  end.

Definition pattern_char (c : cls) : ascii :=
  match c with cA => "A" | cDash => "-" | cO _ => "O" end%char.

Fixpoint pattern_of (cs : list cls) : string :=
  match cs with
  | [] => EmptyString
  | c :: cs' => String (pattern_char c) (pattern_of cs')
  end.

Fixpoint indices_of (i : nat) (cs : list cls) : list (nat * option_tuple) :=
  match cs with
  | [] => []
  | cO t :: cs' => (i, t) :: indices_of (S i) cs'
  | _ :: cs' => indices_of (S i) cs'
  end.

(** In [-hXYZ] the tail [XYZ] is read as further single-dash flags; the
    only one the parser has is [-h].  [not_h e] is [e] from its first
    character other than [h] on. *)
Fixpoint not_h (e : string) : string :=
  match e with
  | EmptyString => EmptyString
  | String c e' => if bool_decide (c = "h"%char) then not_h e' else e
  end.

(** An option that carries an explicit argument. *)
Definition consume_explicit (action : Action) (option_string : string)
    (explicit_arg : string) (namespace : Namespace) : M Namespace :=
  match action with
  | _StoreAction =>
      ret {| name := _get_values _StoreAction [explicit_arg] |}
  | _HelpAction =>
      if Str.eqb option_string "-h"
         && negb (Str.eqb explicit_arg EmptyString) then
        match not_h explicit_arg with
        | EmptyString => print_help ;;; exit 0 None
        | rest =>
            raise (ArgumentError _HelpAction (ignored_explicit_argument rest))
        end
      else
        raise (ArgumentError _HelpAction
                 (ignored_explicit_argument explicit_arg))
  end.

(** The walk: strings that are no option of the parser are passed over,
    help exits, [--name] takes its explicit argument or the next string
    when that is an 'A'. *)
Fixpoint consume (items : list (string * cls)) (namespace : Namespace)
  : M Namespace :=
  match items with
  | [] => ret namespace
  | (_, cO (Some action, option_string, Some explicit_arg)) :: rest =>
      namespace <- consume_explicit action option_string explicit_arg
                     namespace ;;
      consume rest namespace
  | (_, cO (Some _HelpAction, _, None)) :: _ => print_help ;;; exit 0 None
  | (_, cO (Some _StoreAction, _, None)) :: rest =>
      match rest with
      | (arg_string, cA) :: rest' =>
          consume rest' {| name := _get_values _StoreAction [arg_string] |}
      | _ => raise (ArgumentError _StoreAction expected_one_argument)
      end
  | _ :: rest => consume rest namespace
  end.

Definition parse (args : list string) : M Namespace :=
  try_ArgumentError
    (cs <- classify args ;; consume (zip args cs) {| name := VNone |})
    (fun action m => error (argument (_get_action_name action) m)).

(** [fmap] of the monad. *)
Definition mapM {A B} (f : A -> B) (m : M A) : M B :=
  fun s =>
    match m s with
    | (s', Return a) => (s', Return (f a))
    | (s', Raise e) => (s', Raise e)
    | (s', OutOfFuel) => (s', OutOfFuel)
    end.

End flat.

(** * Predicates and outcomes of the proofs

    What the lemmas below say about tokens, option tuples, classes,
    namespaces and runs. *)

Import argparse env_setup flat.

(** A tuple is as the parser can produce it for the string [a]: the
    action is the one registered for the option string, and an explicit
    argument is the end of [a]. *)
Definition tuple_ok (a : string) (t : option_tuple) : Prop :=
  match t with
  | (Some action, option_string, explicit_arg) =>
      In (option_string, action) _option_string_actions
      /\ forall e, explicit_arg = Some e -> exists p, a = (p ++ e)%string
  | (None, _, _) => True
  end.

(** What [_parse_optional] returns for [a]. *)
Definition result_ok (a : string) (r : option option_tuple) : Prop :=
  match r with Some t => tuple_ok a t | None => True end.

(** The class [c] holds a tuple the parser can produce for [a]. *)
Definition cls_ok (a : string) (c : cls) : Prop :=
  match c with cO t => tuple_ok a t | _ => True end.

(** The option tuple recorded at index [j], if the string there is an
    option. *)
Definition opt_at (cs : list cls) (j : nat) : option option_tuple :=
  match cs !! j with Some (cO t) => Some t | _ => None end.

(** A token of [str.split()]: not empty and free of whitespace. *)
Definition token (t : string) : Prop :=
  t <> EmptyString /\ Str.nospace t = true.

(** The value of the namespace cannot hold whitespace: it is [None], a
    string cut from a token, or the empty list. *)
Definition name_ok (ns : Namespace) : Prop :=
  match name ns with
  | VNone => True
  | VStr x => Str.nospace x = true
  | VList l => l = []
  end.

(** A token of the value paired with a class it can have. *)
Definition item_ok (it : string * cls) : Prop :=
  Str.nospace (fst it) = true /\ cls_ok (fst it) (snd it).

(** What [parse_known_args] did, seen from its caller. *)
Inductive parsed : Type :=
| Parsed (ns : Namespace)
| HelpShown
| Rejected (m : message).

(** The computation each of the three stands for. *)
Definition denote (p : parsed) : M Namespace :=
  match p with
  | Parsed ns => ret ns
  | HelpShown => print_help ;;; exit 0 None
  | Rejected m => error m
  end.

(** The greeting [main] settles on for a value of [args.name]. *)
Definition greeting_of (v : value) : string :=
  if truthy v then ("Hello, " ++ format v ++ "!")%string
  else default_greeting.

(** The ways a run ends.  The two lines are spelled out character by
    character: [String "034"] is the double quote and [String "010"]
    the line feed. *)
Definition completed (greeting : string) : CompletedProcess :=
  {| out := [Text ("DEMO_GREETING="
                   ++ String "034"
                        (greeting ++ String "034" (String "010" EmptyString)))];
     err := [Text ("env_setup.py: Setting DEMO_GREETING"
                   ++ String "010" EmptyString)];
     returncode := 0 |}.

(** [print] raised on the greeting: nothing on standard output, the
    traceback on standard error, status 1. *)
Definition crashed : CompletedProcess :=
  {| out := []; err := [traceback UnicodeEncodeError]; returncode := 1 |}.

(** The end of a run that comes to print [greeting]. *)
Definition printed (p : process) (greeting : string) : CompletedProcess :=
  if encodable p greeting then completed greeting else crashed.

(** What the formatter of the process [p] takes the width from. *)
Definition terminal_size_of (p : process) : terminal_size :=
  {| COLUMNS := os_environ p !! "COLUMNS"; LINES := os_environ p !! "LINES";
     tty := terminal p |}.

(** The help message on standard output, status 0. *)
Definition help_shown (p : process) : CompletedProcess :=
  {| out := [format_help (terminal_size_of p)]; err := [];
     returncode := 0 |}.

(** Usage and error message on standard error, status 2. *)
Definition rejected (p : process) (m : message) : CompletedProcess :=
  {| out := [];
     err := [format_usage (terminal_size_of p); error_text m];
     returncode := 2 |}.

(** The run that follows each outcome of the parsing. *)
Definition run_of (p : process) (r : parsed) : CompletedProcess :=
  match r with
  | Parsed ns => printed p (greeting_of (name ns))
  | HelpShown => help_shown p
  | Rejected m => rejected p m
  end.

(** The value of UBER_GLOBAL_COMMAND_ARGS in the process, the empty
    string when the variable is absent, and its tokens. *)
Definition args_of (p : process) : string :=
  default EmptyString (os_environ p !! "UBER_GLOBAL_COMMAND_ARGS").
Definition tokens_of (p : process) : list string := Str.split (args_of p).

(** Two processes that differ at most in UBER_GLOBAL_COMMAND_ARGS. *)
Definition same_rest (p1 p2 : process) : Prop :=
  (forall k, k <> "UBER_GLOBAL_COMMAND_ARGS" ->
             os_environ p1 !! k = os_environ p2 !! k)
  /\ (forall c, stdout_encodes p1 c = stdout_encodes p2 c)
  /\ terminal p1 = terminal p2.

(** [not t.startswith('-')]. *)
Definition no_dash (t : string) : bool := negb (Str.startswith t "-").

(** The name of the environment variable. *)
Definition VAR : string := "UBER_GLOBAL_COMMAND_ARGS".

(** The flag and its abbreviations. *)
Definition name_flags : list string := ["--n"; "--na"; "--nam"; "--name"].

(** The parser does not recognise the token: it is not the separator
    [--], and [_parse_optional] finds it a positional or an option
    string without an action. *)
Definition unrecognised (t : string) : bool :=
  negb (Str.eqb t "--")
  && match _parse_optional t io0 with
     | (_, Return None) | (_, Return (Some (None, _, _))) => true
     | _ => false
     end.

(** The token is read as the name flag without a value of its own, so
    that the flag takes the next token. *)
Definition awaits_value (x : string) : bool :=
  match _parse_optional x io0 with
  | (_, Return (Some (Some _StoreAction, _, None))) => true
  | _ => false
  end.

(** The classes the walk passes over. *)
Definition skippable (c : cls) : Prop :=
  match c with
  | cA | cDash | cO (None, _, _) => True
  | cO (Some _, _, _) => False
  end.

(** The class of a name flag that takes the next string. *)
Definition awaiting (c : cls) : Prop :=
  match c with
  | cO (Some _StoreAction, _, None) => True
  | _ => False
  end.

(** The class [c] is one the first loop can give the token [x]. *)
Definition class_of_token (x : string) (c : cls) : Prop :=
  match c with
  | cO t => forall s, _parse_optional x s = (s, Return (Some t))
  | _ => True
  end.

(** Every character of [v] is whitespace. *)
Definition all_space (v : string) : bool :=
  forallb Str.isspace (list_ascii_of_string v).

(** The characters of [s] that are not whitespace, in order. *)
Definition visible (s : string) : string :=
  string_of_list_ascii
    (List.filter (fun c => negb (Str.isspace c)) (list_ascii_of_string s)).

(** The items do not start with a string of class 'A'. *)
Definition not_A (items : list (string * cls)) : Prop :=
  match items with (_, cA) :: _ => False | _ => True end.

(** The token can be the value of the name flag: it does not start
    with a dash, or it is the single dash, or it looks like a negative
    number. *)
Definition positional (v : string) : bool :=
  no_dash v || Str.eqb v "-" || _negative_number_matcher v.

(** The help flag and the abbreviations of its long form. *)
Definition help_flags : list string :=
  ["-h"; "--h"; "--he"; "--hel"; "--help"].

(** The argument strings name [x]: one of them is a name flag followed
    by [=] and [x], or a name flag is directly followed by [x]. *)
Definition named_by (args : list string) (x : string) : Prop :=
  (exists flag, In flag name_flags /\ In (flag ++ "=" ++ x)%string args)
  \/ (exists flag l1 l2,
        In flag name_flags /\ args = l1 ++ flag :: x :: l2).

(** A token that is none of the parser's.  It does not start with a
    dash; or it is one dash, alone or followed by a character other
    than [h] and [-]; or it starts with two dashes, is not [--] itself,
    and its text up to the first [=] is the start neither of --help nor
    of --name. *)
Definition foreign (t : string) : bool :=
  match t with
  | String c0 (String c1 _) =>
      if negb (bool_decide (c0 = "-"%char)) then true
      else if bool_decide (c1 = "-"%char) then
        let option_prefix :=
          match Str.split_once "=" t with
          | Some (before, _) => before
          | None => t
          end in
        negb (Str.eqb t "--")
        && negb (Str.startswith "--help" option_prefix)
        && negb (Str.startswith "--name" option_prefix)
      else negb (bool_decide (c1 = "h"%char))
  | _ => true
  end.

(** * Proofs *)

(** ** The monad *)

Ltac munfold :=
  unfold bind, ret, raise, out_of_fuel, mapM, try_ArgumentError, error,
    exit, print_usage_stderr, print_help, write_stdout, write_stderr in *.

Lemma mapM_bind {A B C} (f : B -> C) (m : M A) (k : A -> M B) s :
  mapM f (bind m k) s = bind m (fun a => mapM f (k a)) s.
Proof. munfold. destruct (m s) as [s' [a|e|]]; reflexivity. Qed.

(** ** The first loop records the classes *)

Lemma pattern_of_repeat_A n :
  pattern_of (repeat cA n) = string_of_list_ascii (repeat "A"%char n).
Proof. induction n; simpl; congruence. Qed.

Lemma indices_of_repeat_A n i : indices_of i (repeat cA n) = [].
Proof. revert i; induction n; simpl; auto. Qed.

Lemma scan_arg_strings_classify arg_strings i s :
  scan_arg_strings i arg_strings s
  = mapM (fun cs => (indices_of i cs, pattern_of cs)) (classify arg_strings) s.
Proof.
  revert i s; induction arg_strings as [|a rest IH]; intros i s; simpl.
  - reflexivity.
  - destruct (Str.eqb a "--").
    + munfold; simpl. now rewrite indices_of_repeat_A, pattern_of_repeat_A.
    + unfold bind at 1. rewrite mapM_bind. unfold bind at 2.
      destruct (_parse_optional a s) as [s' [r|e|]]; try reflexivity.
      rewrite mapM_bind. unfold bind. rewrite IH. unfold mapM, ret.
      destruct (classify rest s') as [s'' [cs|e|]]; try reflexivity.
      destruct r; reflexivity.
Qed.
(** ** Recognising one argument string *)

Lemma dict_get_In {V} (d : list (string * V)) k v :
  dict_get d k = Some v -> In (k, v) d.
Proof.
  induction d as [|[k' v'] d IH]; simpl; [discriminate|].
  unfold Str.eqb. case_bool_decide; intros Hg.
  - left. congruence.
  - right. auto.
Qed.

Lemma split_once_app c s p e :
  Str.split_once c s = Some (p, e) -> s = (p ++ String c e)%string.
Proof.
  revert p e; induction s as [|d s IH]; simpl; intros p e; [discriminate|].
  case_bool_decide.
  - intros [= <- <-]. now subst.
  - destruct (Str.split_once c s) as [[b a]|]; [|discriminate].
    intros [= <- <-]. now rewrite (IH b a eq_refl) at 1.
Qed.

Lemma string_app_assoc (a b c : string) :
  ((a ++ b) ++ c = a ++ (b ++ c))%string.
Proof.
  induction a as [|x a IH]; [reflexivity|].
  change (String x ((a ++ b) ++ c) = String x (a ++ (b ++ c)))%string.
  now rewrite IH.
Qed.

Lemma contains_prefix_chars c :
  Str.contains c prefix_chars = true -> c = "-"%char.
Proof.
  unfold prefix_chars; simpl. case_bool_decide; [auto|discriminate].
Qed.

Ltac solve_tuples tac :=
  repeat match goal with
  | |- True => exact I
  | |- Forall _ [] => constructor
  | |- Forall _ (_ :: _) =>
      constructor; [cbn [tuple_ok]; split; [simpl; auto 6 | tac] | ]
  end.

Lemma _get_option_tuples_ok c1 a'' :
  let a := String "-" (String c1 a'') in
  exists l, Forall (tuple_ok a) l
            /\ forall s, _get_option_tuples a s = (s, Return l).
Proof.
  intros a. subst a. unfold _get_option_tuples. cbv iota beta.
  change (Str.contains "-" prefix_chars) with true.
  destruct (Str.contains c1 prefix_chars) eqn:Hc1; cbn [andb negb].
  - destruct (Str.split_once "=" (String "-" (String c1 a'')))
      as [[p x]|] eqn:Hs.
    + assert (He : exists q, String "-" (String c1 a'') = (q ++ x)%string).
      { apply split_once_app in Hs. exists (p ++ "=")%string.
        now rewrite string_app_assoc. }
      eexists; split; [|intros s; reflexivity].
      unfold _option_string_actions, flat_map.
      destruct (Str.startswith "-h" p), (Str.startswith "--help" p),
        (Str.startswith "--name" p); cbn [app];
        solve_tuples ltac:(intros e [= <-]; exact He).
    + eexists; split; [|intros s; reflexivity].
      unfold _option_string_actions, flat_map.
      set (a := String "-" (String c1 a'')) in *.
      destruct (Str.startswith "-h" a), (Str.startswith "--help" a),
        (Str.startswith "--name" a); cbn [app];
        solve_tuples ltac:(discriminate).
  - eexists; split; [|intros s; reflexivity].
    unfold _option_string_actions, flat_map.
    assert (He : exists p, String "-" (String c1 a'') = (p ++ a'')%string).
    { now exists (String "-" (String c1 EmptyString)). }
    change (Str.drop 2 (String "-" (String c1 a''))) with a''.
    set (sp := Str.take 2 (String "-" (String c1 a''))).
    set (a := String "-" (String c1 a'')) in *.
    destruct (Str.eqb "-h" sp), (Str.eqb "--help" sp), (Str.eqb "--name" sp),
      (Str.startswith "-h" a), (Str.startswith "--help" a),
      (Str.startswith "--name" a); cbn [app];
      solve_tuples ltac:(first [discriminate | intros e [= <-]; exact He]).
Qed.

Lemma _parse_optional_cases a :
  (exists r, result_ok a r /\ forall s, _parse_optional a s = (s, Return r))
  \/ (exists m, forall s, _parse_optional a s = error m s).
Proof.
  unfold _parse_optional.
  destruct a as [|c0 a']; [left; exists None; split; [exact I|reflexivity]|].
  destruct (negb (Str.contains c0 prefix_chars)) eqn:Hc0;
    [left; exists None; split; [exact I|reflexivity]|].
  destruct (dict_get _option_string_actions (String c0 a')) as [act|] eqn:Hd.
  { left. eexists (Some (Some act, _, None)). split; [|reflexivity].
    split; [now apply dict_get_In|discriminate]. }
  destruct (String.length (String c0 a') =? 1)%nat eqn:Hlen;
    [left; exists None; split; [exact I|reflexivity]|].
  destruct a' as [|c1 a'']; [discriminate|].
  apply negb_false_iff, contains_prefix_chars in Hc0; subst c0.
  destruct (Str.split_once "=" (String "-" (String c1 a'')))
    as [[p x]|] eqn:Hs.
  - destruct (dict_get _option_string_actions p) as [act|] eqn:Hp.
    + left. eexists (Some (Some act, p, Some x)). split; [|reflexivity].
      split; [now apply dict_get_In|].
      intros e [= <-]. apply split_once_app in Hs. exists (p ++ "=")%string.
      now rewrite string_app_assoc.
    + destruct (_get_option_tuples_ok c1 a'') as (l & Hl & Hrun).
      unfold bind. setoid_rewrite Hrun.
      destruct l as [|t [|t' l]].
      * left. repeat match goal with
          | |- context [if ?b then _ else _] => destruct b
          end; eexists; (split; [|reflexivity]); exact I.
      * left. exists (Some t). split; [|reflexivity].
        now inversion Hl.
      * right. eexists. reflexivity.
  - destruct (_get_option_tuples_ok c1 a'') as (l & Hl & Hrun).
    unfold bind. setoid_rewrite Hrun.
    destruct l as [|t [|t' l]].
    * left. repeat match goal with
        | |- context [if ?b then _ else _] => destruct b
        end; eexists; (split; [|reflexivity]); exact I.
    * left. exists (Some t). split; [|reflexivity].
      now inversion Hl.
    * right. eexists. reflexivity.
Qed.
(** ** The classes of a list of argument strings *)

Lemma classify_cases args :
  (exists cs, Forall2 cls_ok args cs
              /\ forall s, classify args s = (s, Return cs))
  \/ (exists m, forall s, classify args s = error m s).
Proof.
  induction args as [|a rest IH]; simpl.
  - left. exists []. split; [constructor|reflexivity].
  - destruct (Str.eqb a "--").
    + left. eexists. split; [|reflexivity].
      constructor; [exact I|].
      clear. induction rest; simpl; constructor; [exact I|assumption].
    + destruct (_parse_optional_cases a) as [(r & Hr & Ha)|(m & Ha)].
      * destruct IH as [(cs & Hcs & Hrest)|(m & Hrest)].
        -- left. eexists. split; [|intros s; unfold bind;
             rewrite Ha, Hrest; reflexivity].
           constructor; [|assumption]. destruct r; [exact Hr|exact I].
        -- right. exists m. intros s. unfold bind. now rewrite Ha, Hrest.
      * right. exists m. intros s. unfold bind. rewrite Ha. reflexivity.
Qed.

(** ** The dict of option indices *)

Lemma indices_get_of cs i j :
  indices_get (indices_of i cs) j
  = if (j <? i)%nat then None else opt_at cs (j - i).
Proof.
  revert i; induction cs as [|c cs IH]; intros i; simpl.
  - unfold opt_at. destruct (j <? i)%nat; [reflexivity|].
    now rewrite lookup_nil.
  - assert (Hstep : indices_get (indices_of (S i) cs) j
                    = if (j <? i)%nat then None
                      else if (j =? i)%nat then None
                      else opt_at (c :: cs) (j - i)).
    { rewrite IH. destruct (Nat.ltb_spec j (S i)), (Nat.ltb_spec j i),
        (Nat.eqb_spec j i); try lia; try reflexivity.
      unfold opt_at. replace (j - i) with (S (j - S i)) by lia.
      reflexivity. }
    destruct c; simpl; rewrite ?Hstep;
      destruct (Nat.ltb_spec j i), (Nat.eqb_spec j i); try lia;
      try reflexivity; subst;
      rewrite ?Nat.eqb_refl, ?Nat.sub_diag; try reflexivity.
    + destruct (Nat.eqb_spec i j); [lia|reflexivity].
    + destruct (Nat.eqb_spec i j); [lia|reflexivity].
Qed.

Lemma in_keys cs i k :
  In k (map fst (indices_of i cs)) <-> i <= k /\ is_Some (opt_at cs (k - i)).
Proof.
  revert i; induction cs as [|c cs IH]; intros i.
  - simpl. unfold opt_at. rewrite lookup_nil.
    split; [tauto|intros [_ [x Hx]]; discriminate].
  - assert (Hrec : In k (map fst (indices_of (S i) cs))
                   <-> i < k /\ is_Some (opt_at (c :: cs) (k - i))).
    { rewrite IH. split; intros [Hle Hs]; (split; [lia|]).
      - unfold opt_at in *. now replace (k - i) with (S (k - S i)) by lia.
      - unfold opt_at in *. now replace (k - i) with (S (k - S i)) in Hs by lia. }
    destruct c; simpl; rewrite ?Hrec.
    + split; [intros [Hlt Hs]; split; [lia|exact Hs]|].
      intros [Hle Hs]. split; [|exact Hs].
      destruct (Nat.eq_dec i k); [|lia]. subst.
      rewrite Nat.sub_diag in Hs. destruct Hs as [x Hx]; discriminate.
    + split; [intros [Hlt Hs]; split; [lia|exact Hs]|].
      intros [Hle Hs]. split; [|exact Hs].
      destruct (Nat.eq_dec i k); [|lia]. subst.
      rewrite Nat.sub_diag in Hs. destruct Hs as [x Hx]; discriminate.
    + split.
      * intros [<-|[Hlt Hs]]; [|split; [lia|exact Hs]].
        split; [lia|]. rewrite Nat.sub_diag. now eexists.
      * intros [Hle Hs]. destruct (Nat.eq_dec i k); [now left|right].
        split; [lia|exact Hs].
Qed.

Lemma fold_min_spec l x :
  let m := fold_left Nat.min l x in
  (m = x \/ In m l) /\ m <= x /\ forall y, In y l -> m <= y.
Proof.
  revert x; induction l as [|z l IH]; intros x; simpl.
  - repeat split; [now left|lia|tauto].
  - destruct (IH (Nat.min x z)) as (Hin & Hle & Hall).
    repeat split.
    + destruct Hin as [Hin|Hin]; [|now right; right].
      destruct (Nat.min_spec x z) as [[_ E]|[_ E]]; rewrite E in Hin;
        [left|right; left]; congruence.
    + lia.
    + intros y [<-|Hy]; [lia|now apply Hall].
Qed.

Lemma fold_max_spec l x :
  let m := fold_left Nat.max l x in
  (m = x \/ In m l) /\ x <= m /\ forall y, In y l -> y <= m.
Proof.
  revert x; induction l as [|z l IH]; intros x; simpl.
  - repeat split; [now left|lia|tauto].
  - destruct (IH (Nat.max x z)) as (Hin & Hle & Hall).
    repeat split.
    + destruct Hin as [Hin|Hin]; [|now right; right].
      destruct (Nat.max_spec x z) as [[_ E]|[_ E]]; rewrite E in Hin;
        [right; left|left]; congruence.
    + lia.
    + intros y [<-|Hy]; [lia|now apply Hall].
Qed.

Lemma list_min_Some l m :
  list_min l = Some m -> In m l /\ forall y, In y l -> m <= y.
Proof.
  destruct l as [|x l]; [discriminate|]. intros [= <-].
  destruct (fold_min_spec l x) as (Hin & Hle & Hall). split.
  - destruct Hin as [->|Hin]; [now left|now right].
  - intros y [<-|Hy]; [exact Hle|now apply Hall].
Qed.

Lemma list_max_Some l m :
  list_max l = Some m -> In m l /\ forall y, In y l -> y <= m.
Proof.
  destruct l as [|x l]; [discriminate|]. intros [= <-].
  destruct (fold_max_spec l x) as (Hin & Hle & Hall). split.
  - destruct Hin as [->|Hin]; [now left|now right].
  - intros y [<-|Hy]; [exact Hle|now apply Hall].
Qed.
(** ** One option and its arguments *)

Lemma match_explicit_store args pat e i os tl s :
  match_explicit args pat e i _StoreAction os tl s
  = (s, Return (i + 1, tl ++ [(_StoreAction, [e], os)])).
Proof. destruct e; reflexivity. Qed.

Lemma match_explicit_help_long args pat e i tl s :
  match_explicit args pat e i _HelpAction "--help" tl s
  = (s, Raise (ArgumentError _HelpAction (ignored_explicit_argument e))).
Proof. destruct e; reflexivity. Qed.

Lemma dict_get_short c :
  dict_get _option_string_actions (String "-" (String c EmptyString))
  = if bool_decide (c = "h"%char) then Some _HelpAction else None.
Proof.
  unfold _option_string_actions, dict_get, Str.eqb.
  repeat case_bool_decide; try reflexivity; try congruence.
Qed.

Lemma startswith_empty x : Str.startswith x EmptyString = true.
Proof. destruct x; reflexivity. Qed.

Lemma match_following_help args pat i os tl s :
  match_following args pat i _HelpAction os tl s
  = (s, Return (i + 1, tl ++ [(_HelpAction, [], os)])).
Proof.
  unfold match_following, _match_argument, bind, ret. simpl.
  rewrite startswith_empty. simpl. repeat (f_equal; try lia).
Qed.

Lemma match_explicit_help_short args pat e i tl s :
  match_explicit args pat e i _HelpAction "-h" tl s
  = match e with
    | EmptyString =>
        (s, Raise (ArgumentError _HelpAction
                     (ignored_explicit_argument EmptyString)))
    | _ =>
        match not_h e with
        | EmptyString =>
            (s, Return (i + 1,
                        tl ++ repeat (_HelpAction, [], "-h")
                                (S (String.length e))))
        | rest =>
            (s, Raise (ArgumentError _HelpAction
                         (ignored_explicit_argument rest)))
        end
    end.
Proof.
  revert tl; induction e as [|c e IH]; intros tl; [reflexivity|].
  cbn -[dict_get _option_string_actions match_following].
  unfold bind, ret. cbn -[dict_get _option_string_actions match_following].
  rewrite dict_get_short.
  replace (negb (bool_decide ("h"%char = "-"%char) || false)
           && negb (Str.eqb (String c e) EmptyString)) with true
    by reflexivity.
  destruct (decide (c = "h"%char)) as [->|Hc].
  - rewrite !bool_decide_eq_true_2 by reflexivity.
    destruct e as [|c' e'].
    + rewrite match_following_help. cbn. now rewrite <- app_assoc.
    + rewrite IH. destruct (not_h (String c' e')); [|reflexivity].
      do 3 f_equal. rewrite <- app_assoc. reflexivity.
  - rewrite !bool_decide_eq_false_2 by assumption. reflexivity.
Qed.

Lemma pattern_drop n cs :
  Str.drop n (pattern_of cs) = pattern_of (drop n cs).
Proof.
  revert cs; induction n as [|n IH]; intros cs; [reflexivity|].
  destruct cs as [|c cs]; [reflexivity|]. simpl. apply IH.
Qed.

Lemma startswith_pattern n cs :
  Str.startswith (Str.drop n (pattern_of cs)) "A"
  = match cs !! n with Some cA => true | _ => false end.
Proof.
  rewrite pattern_drop.
  assert (cs !! n = drop n cs !! 0) as ->
    by (rewrite lookup_drop; f_equal; lia).
  destruct (drop n cs) as [|c l]; [reflexivity|].
  destruct c; simpl; unfold Str.startswith; simpl;
    try reflexivity; now destruct (pattern_of l).
Qed.

Lemma take_1_drop {A} n (l : list A) :
  take 1 (drop n l) = match l !! n with Some v => [v] | None => [] end.
Proof.
  assert (l !! n = drop n l !! 0) as ->
    by (rewrite lookup_drop; f_equal; lia).
  now destruct (drop n l).
Qed.

Section walk.

Variable args : list string.
Variable cs : list cls.
Hypothesis Hok : Forall2 cls_ok args cs.

Lemma opt_at_ok j a t :
  args !! j = Some a -> opt_at cs j = Some t -> tuple_ok a t.
Proof.
  unfold opt_at. intros Ha Ht.
  destruct (cs !! j) as [c|] eqn:Hc; [|discriminate].
  destruct c; try discriminate. injection Ht as ->.
  exact (Forall2_lookup_lr _ _ _ _ _ _ Hok Ha Hc).
Qed.

Lemma consume_optional_flat next t a extras ns s :
  opt_at cs next = Some t -> args !! next = Some a ->
  consume_optional args (indices_of 0 cs) (pattern_of cs) next extras ns s
  = match t with
    | (None, _, _) => (s, Return (next + 1, extras ++ [a], ns))
    | (Some act, os, Some e) =>
        mapM (fun ns' => (next + 1, extras, ns'))
          (consume_explicit act os e ns) s
    | (Some _HelpAction, _, None) => (print_help ;;; exit 0 None) s
    | (Some _StoreAction, _, None) =>
        match args !! (next + 1), cs !! (next + 1) with
        | Some v, Some cA =>
            (s, Return (next + 2, extras,
                        {| name := _get_values _StoreAction [v] |}))
        | _, _ => (s, Raise (ArgumentError _StoreAction expected_one_argument))
        end
    end.
Proof.
  intros Ht Ha. pose proof (opt_at_ok _ _ _ Ha Ht) as Hwf.
  unfold consume_optional. rewrite indices_get_of. simpl.
  rewrite Nat.sub_0_r, Ht.
  destruct t as [[[act|] os] [e|]]; simpl in Hwf.
  - destruct Hwf as [Hin _]. unfold bind.
    destruct Hin as [[= <- <-]|[[= <- <-]|[[= <- <-]|[]]]].
    + rewrite match_explicit_help_short. unfold mapM, consume_explicit.
      destruct e as [|c e]; [reflexivity|].
      replace (Str.eqb "-h" "-h" && negb (Str.eqb (String c e) EmptyString))
        with true by reflexivity.
      destruct (not_h (String c e)); reflexivity.
    + rewrite match_explicit_help_long. reflexivity.
    + rewrite match_explicit_store. reflexivity.
  - destruct Hwf as [Hin _]. unfold bind.
    destruct Hin as [[= <- <-]|[[= <- <-]|[[= <- <-]|[]]]].
    + rewrite match_following_help. reflexivity.
    + rewrite match_following_help. reflexivity.
    + unfold match_following, _match_argument, bind. simpl nargs. cbv iota.
      rewrite startswith_pattern.
      pose proof (Forall2_length _ _ _ Hok) as Hlen.
      destruct (cs !! (next + 1)) as [c|] eqn:Hc.
      * destruct (args !! (next + 1)) as [v|] eqn:Hv.
        2:{ apply lookup_lt_Some in Hc. apply lookup_ge_None in Hv. lia. }
        destruct c; try reflexivity.
        unfold ret. cbn [nargs]. cbv beta iota.
        rewrite take_1_drop, Hv. simpl.
        repeat (f_equal; try lia).
      * destruct (args !! (next + 1)); reflexivity.
  - now rewrite Ha.
  - now rewrite Ha.
Qed.

End walk.

(** ** The loop of [_parse_known_args] follows the walk *)

Lemma consume_loop_S args idx pat fuel start extras ns :
  consume_loop args idx pat (S fuel) start extras ns
  = if (Z.of_nat start <=? max_option_string_index idx)%Z then
      match list_min (List.filter (fun index => (start <=? index)%nat)
                                  (map fst idx)) with
      | None => raise ValueError
      | Some next =>
          let '(extras', start') :=
            match indices_get idx start with
            | None =>
                (extras ++ take (next - start) (drop start args), next)
            | Some _ => (extras, start)
            end in
          r <- consume_optional args idx pat start' extras' ns ;;
          let '(start_index, extras, namespace) := r in
          consume_loop args idx pat fuel start_index extras namespace
      end
    else ret (start, extras, ns).
Proof.
  simpl. destruct (Z.of_nat start <=? max_option_string_index idx)%Z;
    [|reflexivity].
  destruct (list_min _) as [next|]; [|reflexivity].
  unfold consume_positionals. rewrite Nat.ltb_irrefl.
  destruct (start =? next)%nat; reflexivity.
Qed.

Lemma drop_zip_cons {A B} (l : list A) (k : list B) j a c :
  l !! j = Some a -> k !! j = Some c ->
  drop j (zip l k) = (a, c) :: drop (S j) (zip l k).
Proof.
  intros Ha Hc. apply drop_S. now rewrite lookup_zip_with, Ha, Hc.
Qed.

Section loop.

Variable args : list string.
Variable cs : list cls.
Hypothesis Hok : Forall2 cls_ok args cs.

Lemma consume_skip k start ns s :
  (forall j, start <= j < start + k -> opt_at cs j = None) ->
  start + k <= length args ->
  consume (drop start (zip args cs)) ns s
  = consume (drop (start + k) (zip args cs)) ns s.
Proof.
  pose proof (Forall2_length _ _ _ Hok) as Hlen.
  revert start; induction k as [|k IH]; intros start Hnone Hle.
  - now rewrite Nat.add_0_r.
  - destruct (lookup_lt_is_Some_2 args start) as [a Ha]; [lia|].
    destruct (lookup_lt_is_Some_2 cs start) as [c Hc]; [lia|].
    rewrite (drop_zip_cons _ _ _ _ _ Ha Hc).
    pose proof (Hnone start ltac:(lia)) as Hs. unfold opt_at in Hs.
    rewrite Hc in Hs.
    replace (start + S k) with (S start + k) by lia.
    rewrite <- IH; [|intros j Hj; apply Hnone; lia|lia].
    destruct c; [reflexivity|reflexivity|discriminate].
Qed.

Lemma consume_loop_flat fuel start extras ns s :
  start <= length args -> length args + 1 <= fuel + start ->
  mapM (fun r => snd r)
    (consume_loop args (indices_of 0 cs) (pattern_of cs) fuel start extras ns)
    s
  = consume (drop start (zip args cs)) ns s.
Proof.
  pose proof (Forall2_length _ _ _ Hok) as Hlen.
  revert start extras ns s; induction fuel as [|fuel IH];
    intros start extras ns s Hstart Hfuel; [lia|].
  rewrite consume_loop_S.
  set (keys := map fst (indices_of 0 cs)).
  assert (Hkeys : forall k, In k keys <-> is_Some (opt_at cs k)).
  { intros k. unfold keys. rewrite in_keys, Nat.sub_0_r.
    split; [tauto|split; [lia|assumption]]. }
  assert (Hlt : forall k, is_Some (opt_at cs k) -> k < length args).
  { intros k [t Hk]. unfold opt_at in Hk.
    destruct (cs !! k) eqn:Hc; [|discriminate].
    apply lookup_lt_Some in Hc. lia. }
  destruct (Z.of_nat start <=? max_option_string_index (indices_of 0 cs))%Z
    eqn:Htest.
  - (* an option at or after [start] *)
    unfold max_option_string_index in Htest. fold keys in Htest.
    destruct (list_max keys) as [m|] eqn:Hmax;
      [|apply Z.leb_le in Htest; lia].
    apply Z.leb_le in Htest. apply list_max_Some in Hmax as [Hm _].
    destruct (list_min (List.filter (fun index => (start <=? index)%nat) keys))
      as [next|] eqn:Hmin.
    2:{ exfalso.
        assert (Hin : In m (List.filter
                              (fun index => (start <=? index)%nat) keys)).
        { apply filter_In. split; [assumption|]. apply Nat.leb_le. lia. }
        destruct (List.filter _ keys); [destruct Hin|discriminate]. }
    apply list_min_Some in Hmin as [Hnext Hleast].
    apply filter_In in Hnext as [Hnext Hge]. apply Nat.leb_le in Hge.
    apply Hkeys in Hnext. pose proof (Hlt _ Hnext) as Hnlt.
    destruct Hnext as [t Ht].
    destruct (lookup_lt_is_Some_2 args next) as [a Ha]; [lia|].
    assert (Hbefore : forall j, start <= j < next -> opt_at cs j = None).
    { intros j Hj. destruct (opt_at cs j) eqn:Hoj; [|reflexivity].
      exfalso. assert (next <= j); [|lia]. apply Hleast.
      apply filter_In. split; [apply Hkeys; eauto|]. apply Nat.leb_le. lia. }
    rewrite indices_get_of. simpl (start <? 0)%nat. cbv iota.
    rewrite Nat.sub_0_r.
    assert (Hstep : forall extras',
      mapM (fun r => snd r)
        (r <- consume_optional args (indices_of 0 cs) (pattern_of cs)
                next extras' ns ;;
         let '(start_index, extras0, namespace) := r in
         consume_loop args (indices_of 0 cs) (pattern_of cs) fuel
           start_index extras0 namespace) s
      = consume (drop start (zip args cs)) ns s).
    { intros extras'.
      rewrite (consume_skip (next - start) start ns s);
        [|intros j Hj; apply Hbefore; lia|lia].
      replace (start + (next - start)) with next by lia.
      assert (Hc : cs !! next = Some (cO t)).
      { unfold opt_at in Ht. destruct (cs !! next) as [[]|];
          try discriminate. congruence. }
      rewrite (drop_zip_cons _ _ _ _ _ Ha Hc).
      rewrite mapM_bind. unfold bind.
      rewrite (consume_optional_flat args cs Hok next t a extras' ns s Ht Ha).
      destruct t as [[[[|]|] os] [e|]].
      - (* help with an explicit argument *)
        unfold mapM at 1. cbn [consume]. unfold bind.
        destruct (consume_explicit _HelpAction os e ns s) as [s' [ns'| |]];
          try reflexivity.
        rewrite IH by lia. now rewrite Nat.add_1_r.
      - reflexivity.
      - unfold mapM at 1. cbn [consume]. unfold bind.
        destruct (consume_explicit _StoreAction os e ns s) as [s' [ns'| |]];
          try reflexivity.
        rewrite IH by lia. now rewrite Nat.add_1_r.
      - (* --name and the following string *)
        cbn [consume].
        destruct (args !! (next + 1)) as [v|] eqn:Hv;
          destruct (cs !! (next + 1)) as [c|] eqn:Hcn.
        + rewrite Nat.add_1_r in Hv, Hcn.
          rewrite (drop_zip_cons _ _ _ _ _ Hv Hcn).
          destruct c; try reflexivity.
          apply lookup_lt_Some in Hv.
          rewrite IH by lia. now replace (next + 2) with (S (S next)) by lia.
        + apply lookup_lt_Some in Hv. apply lookup_ge_None in Hcn. lia.
        + apply lookup_lt_Some in Hcn. apply lookup_ge_None in Hv. lia.
        + rewrite drop_ge; [reflexivity|].
          apply lookup_ge_None in Hv. rewrite length_zip_with. lia.
      - rewrite IH by lia. cbn [consume]. now rewrite Nat.add_1_r.
      - rewrite IH by lia. cbn [consume]. now rewrite Nat.add_1_r. }
    destruct (opt_at cs start) eqn:Hos.
    + assert (next = start) as ->.
      { assert (next <= start); [|lia]. apply Hleast. apply filter_In.
        split; [apply Hkeys; eauto|]. apply Nat.leb_le. lia. }
      apply Hstep.
    + apply Hstep.
  - (* no option is left *)
    apply Z.leb_gt in Htest.
    assert (Hnone : forall j, start <= j -> opt_at cs j = None).
    { intros j Hj. destruct (opt_at cs j) eqn:Hoj; [|reflexivity].
      exfalso. assert (Hin : In j keys) by (apply Hkeys; eauto).
      unfold max_option_string_index in Htest. fold keys in Htest.
      destruct (list_max keys) as [m|] eqn:Hmax.
      - apply list_max_Some in Hmax as [_ Hall]. specialize (Hall j Hin).
        apply Nat2Z.inj_lt in Htest. clear - Hall Htest Hj. lia.
      - destruct keys; [destruct Hin|discriminate]. }
    rewrite (consume_skip (length args - start) start);
      [|intros j Hj; apply Hnone; lia|lia].
    rewrite drop_ge; [reflexivity|]. rewrite length_zip_with. lia.
Qed.

End loop.

Theorem parse_known_args_flat args s :
  mapM fst (parse_known_args args) s = parse args s.
Proof.
  unfold parse_known_args, parse, _parse_known_args.
  destruct (classify_cases args) as [(cs & Hok & Hcl)|(m & Hcl)].
  - pose proof (consume_loop_flat args cs Hok (S (length args)) 0 []
                  {| name := VNone |} s ltac:(lia) ltac:(lia)) as Hflat.
    rewrite drop_0 in Hflat.
    unfold mapM, try_ArgumentError, bind in *.
    rewrite scan_arg_strings_classify. unfold mapM. rewrite Hcl.
    rewrite <- Hflat.
    destruct (consume_loop _ _ _ _ _ _ _ s) as [s' [[[si ex] ns]|e|]];
      [reflexivity| |reflexivity].
    destruct e; reflexivity.
  - unfold mapM, try_ArgumentError, bind.
    rewrite scan_arg_strings_classify. unfold mapM. rewrite Hcl.
    reflexivity.
Qed.

(** ** Strings without whitespace *)

Lemma list_ascii_app a b :
  list_ascii_of_string (a ++ b)
  = list_ascii_of_string a ++ list_ascii_of_string b.
Proof.
  induction a as [|c a IH]; [reflexivity|].
  change (c :: list_ascii_of_string (a ++ b)
          = c :: (list_ascii_of_string a ++ list_ascii_of_string b)).
  now rewrite IH.
Qed.

Lemma nospace_app a b :
  Str.nospace (a ++ b) = Str.nospace a && Str.nospace b.
Proof. unfold Str.nospace. now rewrite list_ascii_app, forallb_app. Qed.

Lemma nospace_suffix a p e :
  a = (p ++ e)%string -> Str.nospace a = true -> Str.nospace e = true.
Proof.
  intros ->. rewrite nospace_app. now intros [_ ?]%andb_true_iff.
Qed.

Lemma split_from_tokens w s :
  Str.nospace w = true -> Forall token (Str.split_from w s).
Proof.
  revert w; induction s as [|c s IH]; intros w Hw; simpl.
  - destruct w; constructor; [|constructor]. split; [discriminate|exact Hw].
  - destruct (Str.isspace c) eqn:Hc.
    + destruct w; [now apply IH|].
      constructor; [split; [discriminate|exact Hw]|now apply IH].
    + apply IH. rewrite nospace_app, Hw. unfold Str.nospace. simpl.
      now rewrite Hc.
Qed.

Lemma split_tokens s : Forall token (Str.split s).
Proof. now apply split_from_tokens. Qed.

(** ** What parsing can do *)

Lemma _get_values_store e :
  _get_values _StoreAction [e]
  = if Str.eqb e "--" then VList [] else VStr e.
Proof.
  unfold _get_values. simpl. now destruct (Str.eqb e "--").
Qed.

Lemma name_ok_store e :
  Str.nospace e = true -> name_ok {| name := _get_values _StoreAction [e] |}.
Proof.
  intros He. unfold name_ok. simpl name. rewrite _get_values_store.
  now destruct (Str.eqb e "--").
Qed.

Lemma consume_cases n items ns :
  length items <= n -> Forall item_ok items -> name_ok ns ->
  (exists ns', name_ok ns' /\ forall s, consume items ns s = (s, Return ns'))
  \/ (forall s, consume items ns s = (print_help ;;; exit 0 None) s)
  \/ (exists act m,
        forall s, consume items ns s = (s, Raise (ArgumentError act m))).
Proof.
  revert items ns; induction n as [|n IH]; intros items ns Hn Hitems Hns.
  { destruct items; [|simpl in Hn; lia]. left. now exists ns. }
  destruct items as [|[a c] rest]; [left; now exists ns|].
  simpl in Hn. inversion Hitems as [|? ? [Ha Hc] Hrest]; subst.
  simpl in Ha, Hc.
  assert (Hskip : forall ns0, name_ok ns0 ->
    (exists ns', name_ok ns' /\ forall s, consume rest ns0 s = (s, Return ns'))
    \/ (forall s, consume rest ns0 s = (print_help ;;; exit 0 None) s)
    \/ (exists act m,
          forall s, consume rest ns0 s = (s, Raise (ArgumentError act m)))).
  { intros ns0 H0. apply IH; [lia|assumption|assumption]. }
  destruct c as [| |[[[act|] os] [e|]]]; cbn [consume];
    try (now apply Hskip).
  - (* an explicit argument *)
    destruct Hc as [_ He]. destruct (He e eq_refl) as [p Hp].
    pose proof (nospace_suffix _ _ _ Hp Ha) as Hne.
    destruct act; unfold consume_explicit, bind.
    + destruct (Str.eqb os "-h" && negb (Str.eqb e EmptyString)).
      * destruct (not_h e); [right; left; reflexivity|].
        right; right. eexists _, _. reflexivity.
      * right; right. eexists _, _. reflexivity.
    + unfold ret. apply Hskip. now apply name_ok_store.
  - (* no explicit argument *)
    destruct act.
    + right; left. reflexivity.
    + destruct rest as [|[v c] rest'].
      * right; right. eexists _, _. reflexivity.
      * inversion Hrest as [|? ? [Hv _] Hrest']; subst. simpl in Hv.
        destruct c; try (right; right; eexists _, _; reflexivity).
        apply IH; [simpl in Hn; lia|assumption|now apply name_ok_store].
Qed.

Lemma parse_cases args :
  Forall token args ->
  exists p, (forall ns, p = Parsed ns -> name_ok ns)
            /\ forall s, parse args s = denote p s.
Proof.
  intros Htok. unfold parse, try_ArgumentError, bind.
  destruct (classify_cases args) as [(cs & Hok & Hcl)|(m & Hcl)].
  - assert (Hitems : Forall item_ok (zip args cs)).
    { clear Hcl. induction Hok as [|a c args cs Hac Hok IH]; [constructor|].
      inversion Htok as [|? ? [_ Ha] Htok']; subst.
      constructor; [split; assumption|now apply IH]. }
    destruct (consume_cases (length (zip args cs)) (zip args cs)
                {| name := VNone |} ltac:(lia) Hitems I)
      as [(ns' & Hns' & Hrun)|[Hrun|(act & m & Hrun)]].
    + exists (Parsed ns'). split; [now intros ? [= <-]|].
      intros s. now rewrite Hcl, Hrun.
    + exists HelpShown. split; [discriminate|].
      intros s. now rewrite Hcl, Hrun.
    + exists (Rejected (argument (_get_action_name act) m)).
      split; [discriminate|]. intros s. now rewrite Hcl, Hrun.
  - exists (Rejected m). split; [discriminate|].
    intros s. now rewrite Hcl.
Qed.

(** ** What a run can do *)

Lemma bind_parse_known_args {B} l (k : Namespace -> M B) s :
  bind (parse_known_args l) (fun r => let '(args, _) := r in k args) s
  = bind (parse l) k s.
Proof.
  unfold bind. rewrite <- parse_known_args_flat. unfold mapM.
  destruct (parse_known_args l s) as [s' [[ns ex]| |]]; reflexivity.
Qed.

Lemma greeting_line_newline g :
  (greeting_line g ++ Str.newline)%string
  = ("DEMO_GREETING="
     ++ String "034" (g ++ String "034" (String "010" EmptyString)))%string.
Proof.
  unfold greeting_line, Str.dquote, Str.newline.
  rewrite !string_app_assoc. reflexivity.
Qed.

Lemma encodable_app p a b :
  encodable p (a ++ b) = encodable p a && encodable p b.
Proof. unfold encodable. now rewrite list_ascii_app, forallb_app. Qed.

Lemma encodable_greeting_line p g :
  encodable p (greeting_line g) = encodable p g.
Proof.
  unfold greeting_line. rewrite !encodable_app.
  change (encodable p "DEMO_GREETING=") with true.
  change (encodable p Str.dquote) with true.
  now rewrite andb_true_r.
Qed.

Lemma encodable_hello p x :
  encodable p ("Hello, " ++ x ++ "!") = encodable p x.
Proof.
  rewrite !encodable_app.
  change (encodable p "Hello, ") with true.
  change (encodable p "!") with true.
  now rewrite andb_true_r.
Qed.

Lemma encodable_all p x :
  (forall c, stdout_encodes p c = true) -> encodable p x = true.
Proof.
  intros Hall. unfold encodable. apply forallb_forall. intros c _.
  rewrite Hall. apply orb_true_r.
Qed.

Lemma encodable_same p1 p2 x :
  (forall c, stdout_encodes p1 c = stdout_encodes p2 c) ->
  encodable p1 x = encodable p2 x.
Proof.
  intros Heq. unfold encodable.
  induction (list_ascii_of_string x) as [|c l IH]; [reflexivity|].
  simpl. now rewrite Heq, IH.
Qed.

(** Once the greeting is settled, [main] ends in its two prints. *)
Lemma run_prints p g :
  match
    (print_stdout (greeting_line g) ;;;
     print_stderr "env_setup.py: Setting DEMO_GREETING") (start p)
  with
  | (s, Return _) =>
      Some {| out := stdout s; err := stderr s; returncode := 0 |}
  | (s, Raise (SystemExit status)) =>
      Some {| out := stdout s; err := stderr s; returncode := status |}
  | (s, Raise e) =>
      Some {| out := stdout s; err := stderr s ++ [traceback e];
              returncode := 1 |}
  | (_, OutOfFuel) => None
  end = Some (printed p g).
Proof.
  unfold bind, print_stdout, printed. cbn [proc start].
  rewrite encodable_greeting_line.
  destruct (encodable p g); [|reflexivity].
  unfold write_stdout, print_stderr, write_stderr. cbn.
  now rewrite greeting_line_newline.
Qed.

Lemma run_of_tokens p r :
  (forall s, parse (tokens_of p) s = denote r s) ->
  run p = Some (run_of p r).
Proof.
  intros Hp. unfold run, main. unfold bind at 1, os_environ_get.
  cbn [proc start]. fold (args_of p).
  destruct (Str.eqb (args_of p) EmptyString) eqn:He; cbn [negb].
  - apply bool_decide_eq_true_1 in He. unfold tokens_of in Hp.
    rewrite He in Hp. specialize (Hp io0).
    destruct r as [ns| |]; [|discriminate Hp..]. injection Hp as <-.
    exact (run_prints p default_greeting).
  - unfold bind at 1. rewrite bind_parse_known_args. fold (tokens_of p).
    unfold bind at 1. rewrite Hp.
    destruct r as [ns| |m]; [|reflexivity|reflexivity].
    unfold run_of, greeting_of. cbn [denote ret].
    destruct (truthy (name ns));
      [exact (run_prints p ("Hello, " ++ format (name ns) ++ "!"))
      |exact (run_prints p default_greeting)].
Qed.

Lemma run_cases p :
  exists r, (forall ns, r = Parsed ns -> name_ok ns)
            /\ (forall s, parse (tokens_of p) s = denote r s)
            /\ run p = Some (run_of p r).
Proof.
  destruct (parse_cases (tokens_of p) (split_tokens _)) as (r & Hok & Hp).
  exists r. split; [exact Hok|]. split; [exact Hp|].
  now apply run_of_tokens.
Qed.

(** What [parse_known_args] returns or raises tells which of the three
    the parsing was, whatever the state it ran in. *)
Lemma parse_known_args_Return args s s' ns unknown r :
  parse_known_args args s = (s', Return (ns, unknown)) ->
  (forall s0, parse args s0 = denote r s0) -> r = Parsed ns.
Proof.
  intros Hpk Hp. specialize (Hp s). rewrite <- parse_known_args_flat in Hp.
  unfold mapM in Hp. rewrite Hpk in Hp. cbn in Hp.
  destruct r as [ns'| |]; [|discriminate Hp..]. now injection Hp as _ <-.
Qed.

Lemma parse_known_args_rejected args s s' r :
  parse_known_args args s = (s', Raise (SystemExit 2)) ->
  (forall s0, parse args s0 = denote r s0) -> exists m, r = Rejected m.
Proof.
  intros Hpk Hp. specialize (Hp s). rewrite <- parse_known_args_flat in Hp.
  unfold mapM in Hp. rewrite Hpk in Hp.
  destruct r as [ns'| |m]; [discriminate Hp|discriminate Hp|now exists m].
Qed.

Lemma run_of_same_rest p1 p2 r :
  same_rest p1 p2 -> run_of p1 r = run_of p2 r.
Proof.
  intros (Henv & Henc & Hterm).
  assert (Hsize : terminal_size_of p1 = terminal_size_of p2).
  { unfold terminal_size_of.
    rewrite (Henv "COLUMNS"), (Henv "LINES"), Hterm by discriminate.
    reflexivity. }
  destruct r as [ns| |m]; unfold run_of, printed, help_shown, rejected.
  - now rewrite (encodable_same p1 p2 _ Henc).
  - now rewrite Hsize.
  - now rewrite Hsize.
Qed.

Lemma run_same_rest p1 p2 :
  same_rest p1 p2 ->
  (forall s, parse (tokens_of p1) s = parse (tokens_of p2) s) ->
  run p1 = run p2.
Proof.
  intros Hrest Heq. destruct (run_cases p2) as (r & _ & Hp & ->).
  rewrite <- (run_of_same_rest p1 p2 r Hrest).
  apply run_of_tokens. intros s. now rewrite Heq.
Qed.

(** ** Greetings are one line *)

Lemma contains_app c a b :
  Str.contains c (a ++ b) = Str.contains c a || Str.contains c b.
Proof.
  induction a as [|d a IH]; [reflexivity|].
  change (bool_decide (c = d) || Str.contains c (a ++ b)
          = bool_decide (c = d) || Str.contains c a || Str.contains c b).
  rewrite IH. now rewrite orb_assoc.
Qed.

Lemma nospace_no_newline x :
  Str.nospace x = true -> Str.contains "010" x = false.
Proof.
  induction x as [|d x IH]; [reflexivity|].
  unfold Str.nospace. simpl. intros [Hd Hx]%andb_true_iff.
  rewrite (IH Hx), orb_false_r. apply bool_decide_eq_false_2.
  intros <-. discriminate.
Qed.

Lemma greeting_one_line ns :
  name_ok ns -> Str.contains "010" (greeting_of (name ns)) = false.
Proof.
  unfold name_ok, greeting_of.
  destruct (name ns) as [|x|l]; simpl truthy; intros Hok.
  - reflexivity.
  - destruct (negb (Str.eqb x EmptyString)); [|reflexivity].
    rewrite !contains_app. simpl format.
    now rewrite (nospace_no_newline x Hok).
  - subst l. reflexivity.
Qed.
(** ** Tokens that do not start with a dash *)

Lemma _parse_optional_no_dash t s :
  no_dash t = true -> _parse_optional t s = (s, Return None).
Proof.
  destruct t as [|c t]; [reflexivity|].
  unfold no_dash, Str.startswith, _parse_optional, prefix_chars. simpl.
  destruct (ascii_dec "-" c) as [<-|Hc].
  - now destruct t.
  - intros _. rewrite bool_decide_eq_false_2 by congruence. reflexivity.
Qed.

Lemma classify_no_dash args s :
  Forall (fun t => no_dash t = true) args ->
  classify args s = (s, Return (repeat cA (length args))).
Proof.
  induction 1 as [|a args Ha _ IH]; [reflexivity|]. simpl.
  replace (Str.eqb a "--") with false.
  2:{ symmetry. apply bool_decide_eq_false_2. intros ->. discriminate. }
  unfold bind. now rewrite (_parse_optional_no_dash a s Ha), IH.
Qed.

Lemma consume_all_A args n ns s :
  consume (zip args (repeat cA n)) ns s = (s, Return ns).
Proof.
  revert n; induction args as [|a args IH]; intros [|n]; try reflexivity.
  simpl. apply IH.
Qed.

Lemma parse_no_dash args s :
  Forall (fun t => no_dash t = true) args ->
  parse args s = denote (Parsed {| name := VNone |}) s.
Proof.
  intros H. unfold parse, try_ArgumentError, bind.
  now rewrite (classify_no_dash args s H), consume_all_A.
Qed.

(** ** Splitting a value made of known tokens *)

Lemma string_app_empty_r a : (a ++ EmptyString)%string = a.
Proof.
  induction a as [|c a IH]; [reflexivity|].
  change (String c (a ++ EmptyString) = String c a). now rewrite IH.
Qed.

Lemma split_from_nospace w v :
  Str.nospace v = true ->
  Str.split_from w v
  = match (w ++ v)%string with EmptyString => [] | t => [t] end.
Proof.
  revert w; induction v as [|c v IH]; intros w Hv.
  - simpl. rewrite string_app_empty_r. now destruct w.
  - unfold Str.nospace in Hv. simpl in Hv.
    apply andb_true_iff in Hv as [Hc Hv]. apply negb_true_iff in Hc.
    simpl. rewrite Hc, (IH _ Hv), string_app_assoc. reflexivity.
Qed.

Lemma split_from_space w a c rest :
  Str.nospace a = true -> Str.isspace c = true ->
  Str.split_from w (a ++ String c rest)
  = match (w ++ a)%string with EmptyString => [] | t => [t] end
    ++ Str.split_from EmptyString rest.
Proof.
  revert w; induction a as [|d a IH]; intros w Ha Hc.
  - simpl. rewrite Hc, string_app_empty_r. now destruct w.
  - unfold Str.nospace in Ha. simpl in Ha.
    apply andb_true_iff in Ha as [Hd Ha]. apply negb_true_iff in Hd.
    change (String d a ++ String c rest)%string
      with (String d (a ++ String c rest)).
    simpl. rewrite Hd, (IH _ Ha Hc), string_app_assoc. reflexivity.
Qed.

Lemma split_two flag value :
  token flag -> token value ->
  Str.split (flag ++ " " ++ value) = [flag; value].
Proof.
  intros [Hf1 Hf2] [Hv1 Hv2]. unfold Str.split.
  change (flag ++ " " ++ value)%string with (flag ++ String " " value)%string.
  rewrite split_from_space by (assumption || reflexivity).
  rewrite split_from_nospace by assumption. simpl.
  destruct flag; [congruence|]. destruct value; [congruence|]. reflexivity.
Qed.

Lemma split_one t : token t -> Str.split t = [t].
Proof.
  intros [H1 H2]. unfold Str.split. rewrite split_from_nospace by assumption.
  simpl. destruct t; [congruence|reflexivity].
Qed.

(** ** The spellings of the name flag *)

Lemma _parse_optional_flag flag s :
  In flag name_flags ->
  _parse_optional flag s
  = (s, Return (Some (Some _StoreAction, "--name", None))).
Proof.
  intros [<-|[<-|[<-|[<-|[]]]]]; reflexivity.
Qed.

Lemma _parse_optional_flag_eq flag value s :
  In flag name_flags ->
  _parse_optional (flag ++ "=" ++ value) s
  = (s, Return (Some (Some _StoreAction, "--name", Some value))).
Proof.
  intros [<-|[<-|[<-|[<-|[]]]]]; reflexivity.
Qed.

Lemma no_dash_not_dashes value :
  no_dash value = true -> Str.eqb value "--" = false.
Proof. intros H. apply bool_decide_eq_false_2. intros ->. discriminate. Qed.

Lemma parse_flag_value flag value s :
  In flag name_flags -> no_dash value = true ->
  parse [flag; value] s = denote (Parsed {| name := VStr value |}) s.
Proof.
  intros Hflag Hvalue. unfold parse, try_ArgumentError, bind.
  cbn [classify].
  replace (Str.eqb flag "--") with false
    by (now destruct Hflag as [<-|[<-|[<-|[<-|[]]]]]).
  unfold bind. rewrite (_parse_optional_flag flag s Hflag).
  rewrite (no_dash_not_dashes value Hvalue).
  rewrite (_parse_optional_no_dash value s Hvalue).
  cbn -[_get_values]. rewrite _get_values_store.
  now rewrite (no_dash_not_dashes value Hvalue).
Qed.

Lemma parse_flag_eq flag value s :
  In flag name_flags ->
  parse [(flag ++ "=" ++ value)%string] s
  = denote (Parsed {| name := _get_values _StoreAction [value] |}) s.
Proof.
  intros Hflag. unfold parse, try_ArgumentError, bind. cbn [classify].
  replace (Str.eqb (flag ++ "=" ++ value) "--") with false
    by (now destruct Hflag as [<-|[<-|[<-|[<-|[]]]]]).
  unfold bind. rewrite (_parse_optional_flag_eq flag value s Hflag).
  reflexivity.
Qed.

Lemma token_flag flag : In flag name_flags -> token flag.
Proof. intros [<-|[<-|[<-|[<-|[]]]]]; split; (discriminate || reflexivity). Qed.

Lemma token_flag_eq flag value :
  In flag name_flags -> Str.nospace value = true ->
  token (flag ++ "=" ++ value).
Proof.
  intros Hflag Hv. split.
  - now destruct Hflag as [<-|[<-|[<-|[<-|[]]]]].
  - rewrite !nospace_app, Hv.
    now destruct Hflag as [<-|[<-|[<-|[<-|[]]]]].
Qed.

(** ** Removing a token the parser does not recognise *)

Lemma _parse_optional_Return t s0 s0' r :
  _parse_optional t s0 = (s0', Return r) ->
  forall s, _parse_optional t s = (s, Return r).
Proof.
  intros H0. destruct (_parse_optional_cases t) as [(r' & _ & Hr)|(m & Hm)].
  - rewrite Hr in H0. injection H0 as _ <-. exact Hr.
  - rewrite Hm in H0. discriminate.
Qed.

Lemma unrecognised_class t :
  unrecognised t = true ->
  Str.eqb t "--" = false
  /\ exists r, skippable (match r with None => cA | Some t' => cO t' end)
               /\ forall s, _parse_optional t s = (s, Return r).
Proof.
  unfold unrecognised. intros [Hdd Hp]%andb_true_iff.
  apply negb_true_iff in Hdd. split; [exact Hdd|].
  destruct (_parse_optional t io0) as [s0' [r| |]] eqn:H0; try discriminate.
  exists r. split; [|exact (_parse_optional_Return t io0 s0' r H0)].
  destruct r as [[[[act|] os] e]|]; [discriminate|exact I|exact I].
Qed.

Lemma classify_insert xs t ys :
  unrecognised t = true ->
  (exists m, (forall s, classify (xs ++ t :: ys) s = error m s)
             /\ forall s, classify (xs ++ ys) s = error m s)
  \/ (exists cs1 c cs2,
        Forall2 class_of_token xs cs1 /\ skippable c
        /\ (forall s, classify (xs ++ t :: ys) s
                      = (s, Return (cs1 ++ c :: cs2)))
        /\ forall s, classify (xs ++ ys) s = (s, Return (cs1 ++ cs2))).
Proof.
  intros Ht. destruct (unrecognised_class t Ht) as (Hdd & r & Hskip & Hr).
  induction xs as [|x xs IH].
  - simpl. rewrite Hdd.
    destruct (classify_cases ys) as [(cs & _ & Hys)|(m & Hys)].
    + right. exists [], (match r with None => cA | Some t' => cO t' end), cs.
      split; [constructor|]. split; [exact Hskip|]. split; [|exact Hys].
      intros s. unfold bind. now rewrite Hr, Hys.
    + left. exists m. split; [|exact Hys].
      intros s. unfold bind. now rewrite Hr, Hys.
  - simpl. destruct (Str.eqb x "--").
    + right.
      exists (cDash :: repeat cA (length xs)), cA, (repeat cA (length ys)).
      split.
      { constructor; [exact I|]. clear. induction xs; constructor; auto.
        exact I. }
      split; [exact I|]. split; intros s; unfold ret; simpl;
        rewrite length_app; simpl; repeat f_equal.
      * now rewrite repeat_app.
      * now rewrite repeat_app.
    + destruct (_parse_optional_cases x) as [(rx & _ & Hx)|(m & Hx)].
      * destruct IH as [(m & H1 & H2)|(cs1 & c & cs2 & Hrel & Hc & H1 & H2)].
        -- left. exists m. split; intros s; unfold bind; rewrite Hx;
             [now rewrite H1|now rewrite H2].
        -- right.
           exists (match rx with None => cA | Some t' => cO t' end :: cs1),
             c, cs2.
           split; [constructor; [now destruct rx|exact Hrel]|].
           split; [exact Hc|].
           split; intros s; unfold bind; rewrite Hx;
             [now rewrite H1|now rewrite H2].
      * left. exists m. split; intros s; unfold bind; now rewrite Hx.
Qed.

Lemma consume_insert n items1 it items2 ns s :
  length items1 <= n -> skippable (snd it) ->
  (forall x, last items1 = Some x -> ~ awaiting (snd x)) ->
  consume (items1 ++ it :: items2) ns s = consume (items1 ++ items2) ns s.
Proof.
  revert items1 ns s; induction n as [|n IH];
    intros items1 ns s Hn Hit Hlast.
  - destruct items1; [|simpl in Hn; lia].
    destruct it as [a [| |[[[act|] os] e]]]; simpl in Hit;
      [reflexivity|reflexivity|destruct Hit|reflexivity].
  - destruct items1 as [|[a1 c1] rest1].
    { destruct it as [a [| |[[[act|] os] e]]]; simpl in Hit;
        [reflexivity|reflexivity|destruct Hit|reflexivity]. }
    simpl in Hn.
    assert (Hrest : forall x, last rest1 = Some x -> ~ awaiting (snd x)).
    { intros x Hx. apply Hlast. rewrite last_cons, Hx. reflexivity. }
    assert (Hstep : forall ns0 s0,
      consume (rest1 ++ it :: items2) ns0 s0
      = consume (rest1 ++ items2) ns0 s0).
    { intros ns0 s0. apply IH; [lia|exact Hit|exact Hrest]. }
    destruct c1 as [| |[[[[|]|] os] [e|]]]; cbn [app consume];
      try apply Hstep; try reflexivity;
      try (unfold bind;
           destruct (consume_explicit _ _ _ _ _) as [s' [ns'| |]];
           [apply Hstep|reflexivity|reflexivity]).
    destruct rest1 as [|[v c'] rest1'].
    + exfalso. exact (Hlast _ eq_refl I).
    + cbn [app]. destruct c'; try reflexivity.
      apply IH; [simpl in Hn; lia|exact Hit|].
      intros x Hx. apply Hrest. rewrite last_cons, Hx. reflexivity.
Qed.

Lemma last_zip_class xs cs1 x c :
  Forall2 class_of_token xs cs1 -> last (zip xs cs1) = Some (x, c) ->
  last xs = Some x /\ class_of_token x c.
Proof.
  induction 1 as [|x0 c0 xs cs1 Hxc Hrel IH]; [discriminate|].
  simpl zip. rewrite !last_cons.
  destruct (last (zip xs cs1)) as [[x' c']|] eqn:Hl.
  - intros [= -> ->]. destruct (IH eq_refl) as [-> Hc]. now split.
  - intros [= <- <-]. split; [|exact Hxc].
    destruct Hrel; [reflexivity|].
    simpl in Hl. rewrite last_cons in Hl. destruct (last _); discriminate.
Qed.

Lemma parse_insert xs t ys s :
  unrecognised t = true ->
  (forall x, last xs = Some x -> awaits_value x = false) ->
  parse (xs ++ t :: ys) s = parse (xs ++ ys) s.
Proof.
  intros Ht Hlast. unfold parse, try_ArgumentError, bind.
  destruct (classify_insert xs t ys Ht)
    as [(m & H1 & H2)|(cs1 & c & cs2 & Hrel & Hc & H1 & H2)].
  - now rewrite H1, H2.
  - rewrite H1, H2.
    pose proof (Forall2_length _ _ _ Hrel) as Hlen.
    rewrite !zip_with_app by exact Hlen. cbn [zip_with].
    rewrite (consume_insert (length (zip xs cs1))); [reflexivity|lia|exact Hc|].
    intros [x cx] Hx Haw. destruct (last_zip_class _ _ _ _ Hrel Hx) as [Hlx Hcx].
    specialize (Hlast x Hlx). unfold awaits_value in Hlast.
    simpl in Haw. destruct cx as [| |[[[[|]|] os] [e|]]]; try destruct Haw.
    simpl in Hcx. now rewrite Hcx in Hlast.
Qed.

(** ** What [str.split] keeps *)

Lemma concat_empty_cons x l :
  String.concat EmptyString (x :: l) = (x ++ String.concat EmptyString l)%string.
Proof.
  destruct l; simpl; [now rewrite string_app_empty_r|reflexivity].
Qed.

Lemma split_from_visible w s :
  String.concat EmptyString (Str.split_from w s) = (w ++ visible s)%string.
Proof.
  revert w; induction s as [|c s IH]; intros w.
  - simpl. rewrite string_app_empty_r. now destruct w.
  - unfold visible. simpl. destruct (Str.isspace c) eqn:Hc; simpl.
    + destruct w as [|d w].
      * apply IH.
      * rewrite concat_empty_cons, IH. reflexivity.
    + rewrite IH, string_app_assoc. reflexivity.
Qed.

Lemma split_all_space v : all_space v = true -> Str.split v = [].
Proof.
  unfold all_space, Str.split. induction v as [|c v IH]; [reflexivity|].
  simpl. intros [Hc Hv]%andb_true_iff. rewrite Hc. auto.
Qed.

(** ** Walking a list of tokens in two parts *)

Lemma classify_app xs ys s :
  Forall (fun x => x <> "--") xs ->
  classify (xs ++ ys) s
  = bind (classify xs)
      (fun cs1 => bind (classify ys) (fun cs2 => ret (cs1 ++ cs2))) s.
Proof.
  intros Hxs. revert s. induction Hxs as [|x xs Hx Hxs IH]; intros s.
  - simpl. unfold bind, ret. destruct (classify ys s) as [s' [cs| |]];
      reflexivity.
  - simpl. unfold Str.eqb. rewrite (bool_decide_eq_false_2 _ Hx).
    unfold bind. destruct (_parse_optional x s) as [s1 [r| |]];
      [|reflexivity|reflexivity].
    rewrite IH. unfold bind.
    destruct (classify xs s1) as [s2 [cs1| |]]; [|reflexivity|reflexivity].
    simpl. destruct (classify ys s2) as [s3 [cs2| |]]; reflexivity.
Qed.

Lemma consume_trailing_A items ys n ns s :
  (forall x, last items = Some x -> ~ awaiting (snd x)) ->
  consume (items ++ zip ys (repeat cA n)) ns s = consume items ns s.
Proof.
  intros Hlast. revert n. induction ys as [|y ys IH]; intros n.
  - simpl. now rewrite app_nil_r.
  - destruct n as [|n]; [simpl; now rewrite app_nil_r|].
    simpl. rewrite (consume_insert (length items));
      [apply IH|lia|exact I|exact Hlast].
Qed.

Lemma consume_app n items1 items2 ns s :
  length items1 <= n ->
  (forall x, last items1 = Some x -> ~ awaiting (snd x)) ->
  consume (items1 ++ items2) ns s
  = bind (consume items1 ns) (fun ns' => consume items2 ns') s.
Proof.
  revert items1 ns s; induction n as [|n IH]; intros items1 ns s Hn Hlast.
  - destruct items1; [reflexivity|simpl in Hn; lia].
  - destruct items1 as [|[a1 c1] rest1]; [reflexivity|].
    simpl in Hn.
    assert (Hrest : forall x, last rest1 = Some x -> ~ awaiting (snd x)).
    { intros x Hx. apply Hlast. rewrite last_cons, Hx. reflexivity. }
    assert (Hstep : forall ns0 s0,
      consume (rest1 ++ items2) ns0 s0
      = bind (consume rest1 ns0) (fun ns' => consume items2 ns') s0).
    { intros ns0 s0. apply IH; [lia|exact Hrest]. }
    destruct c1 as [| |[[[[|]|] os] [e|]]]; cbn [app consume];
      try apply Hstep; try reflexivity;
      try (unfold bind;
           destruct (consume_explicit _ _ _ _ _) as [s' [ns'| |]];
           [apply Hstep|reflexivity|reflexivity]).
    destruct rest1 as [|[v c'] rest1'].
    + exfalso. exact (Hlast _ eq_refl I).
    + cbn [app]. destruct c'; try reflexivity.
      apply IH; [simpl in Hn; lia|].
      intros x Hx. apply Hrest. rewrite last_cons, Hx. reflexivity.
Qed.

(** A walk whose last item is a name flag without a value of its own
    does not return, and whatever follows that item changes nothing
    unless it starts with an 'A'. *)
Lemma consume_awaiting_last n items items2 ns s :
  length items <= n ->
  (exists x, last items = Some x /\ awaiting (snd x)) ->
  not_A items2 ->
  consume (items ++ items2) ns s = consume items ns s
  /\ forall s' ns', consume items ns s <> (s', Return ns').
Proof.
  revert items ns s; induction n as [|n IH]; intros items ns s Hn Hlast H2.
  - destruct items; [|simpl in Hn; lia].
    destruct Hlast as (x & Hx & _). discriminate Hx.
  - destruct items as [|[a1 c1] rest1].
    { destruct Hlast as (x & Hx & _). discriminate Hx. }
    simpl in Hn.
    assert (Hstep : rest1 <> [] -> forall ns0 s0,
      consume (rest1 ++ items2) ns0 s0 = consume rest1 ns0 s0
      /\ forall s' ns', consume rest1 ns0 s0 <> (s', Return ns')).
    { intros Hne ns0 s0. apply IH; [lia| |exact H2].
      destruct Hlast as (x & Hx & Haw). exists x. split; [|exact Haw].
      rewrite last_cons in Hx. destruct (last rest1) eqn:Hl; [exact Hx|].
      destruct rest1; [now destruct Hne|].
      rewrite last_cons in Hl. destruct (last rest1); discriminate. }
    assert (Hone : rest1 = [] -> awaiting c1).
    { intros ->. destruct Hlast as (x & [= <-] & Haw). exact Haw. }
    destruct c1 as [| |[[[[|]|] os] [e|]]]; cbn [app consume].
    + apply Hstep. intros ->. exact (Hone eq_refl).
    + apply Hstep. intros ->. exact (Hone eq_refl).
    + unfold bind.
      destruct (consume_explicit _ _ _ _ _) as [s1 [ns1| |]];
        [|split; [reflexivity|discriminate]..].
      apply Hstep. intros ->. exact (Hone eq_refl).
    + split; [reflexivity|discriminate].
    + unfold bind.
      destruct (consume_explicit _ _ _ _ _) as [s1 [ns1| |]];
        [|split; [reflexivity|discriminate]..].
      apply Hstep. intros ->. exact (Hone eq_refl).
    + destruct rest1 as [|[v c'] rest1'].
      * cbn [app]. destruct items2 as [|[v2 [| |t2]] items2'];
          try (split; [reflexivity|discriminate]).
        destruct H2.
      * cbn [app]. destruct c'; try (split; [reflexivity|discriminate]).
        apply IH; [simpl in Hn; lia| |exact H2].
        destruct Hlast as (x & Hx & Haw). exists x. split; [|exact Haw].
        rewrite !last_cons in Hx.
        destruct (last rest1') eqn:Hl; [exact Hx|].
        injection Hx as <-. destruct Haw.
    + apply Hstep. intros ->. exact (Hone eq_refl).
    + apply Hstep. intros ->. exact (Hone eq_refl).
Qed.

Lemma classify_flag_value flag value s :
  In flag name_flags -> no_dash value = true ->
  classify [flag; value] s
  = (s, Return [cO (Some _StoreAction, "--name", None); cA]).
Proof.
  intros Hflag Hv. cbn [classify].
  assert (Str.eqb flag "--" = false) as ->.
  { simpl in Hflag.
    destruct Hflag as [<-|[<-|[<-|[<-|[]]]]]; reflexivity. }
  rewrite (no_dash_not_dashes value Hv). unfold bind.
  rewrite (_parse_optional_flag flag s Hflag).
  rewrite (_parse_optional_no_dash value s Hv). reflexivity.
Qed.

Lemma classify_flag flag s :
  In flag name_flags ->
  classify [flag] s = (s, Return [cO (Some _StoreAction, "--name", None)]).
Proof.
  intros Hflag. cbn [classify].
  assert (Str.eqb flag "--" = false) as ->.
  { simpl in Hflag.
    destruct Hflag as [<-|[<-|[<-|[<-|[]]]]]; reflexivity. }
  unfold bind. rewrite (_parse_optional_flag flag s Hflag). reflexivity.
Qed.

(** ** What follows the separator *)

Lemma classify_separator xs ys :
  (exists m, (forall s, classify (xs ++ "--" :: ys) s = error m s)
             /\ forall s, classify (xs ++ ["--"]) s = error m s)
  \/ (exists cs1 c,
        length xs = length cs1 /\ skippable c /\ ~ awaiting c
        /\ (forall s, classify (xs ++ "--" :: ys) s
                      = (s, Return (cs1 ++ c :: repeat cA (length ys))))
        /\ forall s, classify (xs ++ ["--"]) s = (s, Return (cs1 ++ [c]))).
Proof.
  induction xs as [|x xs IH].
  - right. exists [], cDash. simpl. auto 6.
  - simpl. destruct (Str.eqb x "--").
    + right. exists (cDash :: repeat cA (length xs)), cA.
      split; [simpl; now rewrite repeat_length|].
      split; [exact I|]. split; [auto|].
      split; intros s; unfold ret; rewrite length_app; simpl;
        repeat f_equal; now rewrite repeat_app.
    + destruct (_parse_optional_cases x) as [(rx & _ & Hx)|(m & Hx)].
      * destruct IH as [(m & H1 & H2)|(cs1 & c & Hlen & Hc & Hna & H1 & H2)].
        -- left. exists m. split; intros s; unfold bind; rewrite Hx;
             [now rewrite H1|now rewrite H2].
        -- right.
           exists (match rx with None => cA | Some t' => cO t' end :: cs1), c.
           split; [simpl; now rewrite Hlen|].
           split; [exact Hc|]. split; [exact Hna|].
           split; intros s; unfold bind; rewrite Hx;
             [now rewrite H1|now rewrite H2].
      * left. exists m. split; intros s; unfold bind; now rewrite Hx.
Qed.

Lemma parse_separator xs ys s :
  parse (xs ++ "--" :: ys) s = parse (xs ++ ["--"]) s.
Proof.
  unfold parse, try_ArgumentError, bind.
  destruct (classify_separator xs ys)
    as [(m & H1 & H2)|(cs1 & c & Hlen & Hc & Hna & H1 & H2)].
  - now rewrite H1, H2.
  - rewrite H1, H2. rewrite !zip_with_app by exact Hlen. cbn [zip_with].
    change (zip_with pair ys (repeat cA (length ys)))
      with (zip ys (repeat cA (length ys))).
    change (zip_with pair xs cs1 ++ ("--", c) :: zip ys (repeat cA (length ys)))
      with (zip_with pair xs cs1 ++ [("--", c)] ++ zip ys (repeat cA (length ys))).
    rewrite app_assoc, consume_trailing_A; [reflexivity|].
    intros x. rewrite last_snoc. intros [= <-]. exact Hna.
Qed.

(** ** A name flag at the end of the tokens *)

Lemma awaiting_dec c : awaiting c \/ ~ awaiting c.
Proof.
  destruct c as [| |[[[[|]|] os] [e|]]]; simpl; auto.
Qed.

Lemma denote_Return p s s' ns :
  denote p s = (s', Return ns) -> p = Parsed ns.
Proof. destruct p; [now intros [= _ ->]|discriminate|discriminate]. Qed.

Ltac not_parsed Hp Hnr :=
  let Hc := fresh "Hc" in
  match type of Hp with
  | context [consume ?i ?n ?s] =>
      destruct (consume i n s) as [? [?|[? ?| | | | |]|]] eqn:Hc
  end;
  try discriminate Hp; first [exact (Hnr _ _ Hc)|exact (Hnr _ _ eq_refl)].

Lemma parse_append_flag xs flag value p :
  Forall (fun x => x <> "--") xs -> In flag name_flags ->
  no_dash value = true ->
  (forall s, parse xs s = denote p s) ->
  forall s,
    parse (xs ++ [flag; value]) s
    = denote match p with
             | Parsed _ => Parsed {| name := VStr value |}
             | _ => p
             end s.
Proof.
  intros Hxs Hflag Hv Hp s. specialize (Hp s). revert Hp.
  unfold parse, try_ArgumentError. unfold bind at 1 2.
  rewrite classify_app by exact Hxs. unfold bind at 1 2.
  destruct (classify_cases xs) as [(cs1 & Hrel & Hcs)|(m & Hm)].
  - rewrite Hcs. rewrite classify_flag_value by assumption. unfold ret.
    pose proof (Forall2_length _ _ _ Hrel) as Hlen.
    rewrite zip_with_app by exact Hlen. cbn [zip_with].
    set (items := zip_with pair xs cs1). set (ns0 := {| name := VNone |}).
    assert (Hcases :
      (forall x, last items = Some x -> ~ awaiting (snd x))
      \/ exists x, last items = Some x /\ awaiting (snd x)).
    { destruct (last items) as [x|]; [|left; discriminate].
      destruct (awaiting_dec (snd x)) as [Ha|Ha].
      - right. now exists x.
      - left. now intros ? [= <-]. }
    destruct Hcases as [Hlast|Hlast].
    + rewrite (consume_app (length items)) by (lia || exact Hlast).
      unfold bind. destruct (consume items ns0 s) as [s1 [ns1|e|]] eqn:Hc.
      * intros Hp. symmetry in Hp. pose proof (denote_Return _ _ _ _ Hp) as ->.
        simpl in Hp. injection Hp as <-. cbn [consume].
        rewrite _get_values_store, (no_dash_not_dashes value Hv).
        reflexivity.
      * intros Hp. rewrite Hp. destruct p as [ns| |]; [|reflexivity..].
        exfalso. destruct e as [a m| | | | |]; discriminate Hp.
      * intros Hp. rewrite Hp. destruct p as [ns| |]; [|reflexivity..].
        discriminate Hp.
    + destruct (consume_awaiting_last (length items) items
                  [(flag, cO (Some _StoreAction, "--name", None)); (value, cA)]
                  ns0 s (le_n _) Hlast I) as [-> Hnr].
      intros Hp. rewrite Hp.
      destruct p as [ns| |]; [exfalso; not_parsed Hp Hnr|reflexivity..].
  - rewrite Hm. intros Hp.
    change (error m s = denote p s) in Hp.
    change (error m s
            = denote match p with
                     | Parsed _ => Parsed {| name := VStr value |}
                     | _ => p
                     end s).
    rewrite Hp. destruct p as [ns| |]; [discriminate Hp|reflexivity..].
Qed.

Lemma parse_flag_last xs flag p :
  Forall (fun x => x <> "--") xs -> In flag name_flags ->
  (forall s, parse (xs ++ [flag]) s = denote p s) ->
  forall ns, p <> Parsed ns.
Proof.
  intros Hxs Hflag Hp. specialize (Hp io0). revert Hp.
  unfold parse, try_ArgumentError. unfold bind at 1.
  rewrite classify_app by exact Hxs. unfold bind at 1 2.
  destruct (classify_cases xs) as [(cs1 & Hrel & Hcs)|(m & Hm)].
  - rewrite Hcs. rewrite classify_flag by assumption. unfold ret.
    pose proof (Forall2_length _ _ _ Hrel) as Hlen.
    rewrite zip_with_app by exact Hlen. cbn [zip_with].
    set (items := zip_with pair xs cs1 ++ _).
    destruct (consume_awaiting_last (length items) items []
                {| name := VNone |} io0 (le_n _)) as [_ Hnr].
    { eexists. split; [unfold items; apply last_snoc|exact I]. }
    { exact I. }
    intros Hp ns ->. not_parsed Hp Hnr.
  - rewrite Hm. intros Hp ns ->. discriminate Hp.
Qed.

Lemma greeting_of_token value :
  token value -> greeting_of (VStr value) = ("Hello, " ++ value ++ "!")%string.
Proof.
  intros [Hne _]. unfold greeting_of. cbn [truthy format]. unfold Str.eqb.
  now rewrite (bool_decide_eq_false_2 _ Hne).
Qed.

(** ** Which strings the parser takes for what *)

Lemma prefix_inv p c s :
  String.prefix p (String c s) = true ->
  p = EmptyString \/ exists p', p = String c p' /\ String.prefix p' s = true.
Proof.
  destruct p as [|d p]; [now left|]. simpl.
  destruct (ascii_dec d c) as [->|]; [|discriminate].
  intros H. right. now exists p.
Qed.

Lemma prefix_nil p : String.prefix p EmptyString = true -> p = EmptyString.
Proof. destruct p; [reflexivity|discriminate]. Qed.

Lemma prefix_name x :
  String.prefix x "--name" = true ->
  In x [EmptyString; "-"; "--"; "--n"; "--na"; "--nam"; "--name"].
Proof.
  intros H.
  repeat (apply prefix_inv in H as [->|(? & -> & H)]; [simpl; auto 10|]).
  apply prefix_nil in H as ->. simpl; auto 10.
Qed.

Lemma prefix_single_dash c1 a'' k :
  c1 <> "-"%char ->
  String.prefix (String "-" (String c1 a'')) (String "-" (String "-" k))
  = false.
Proof.
  intros Hc. simpl. destruct (ascii_dec c1 "-"); [contradiction|reflexivity].
Qed.

Ltac split_ifs H :=
  repeat match type of H with
         | context [if ?b then _ else _] => destruct b
         end.

Lemma awaits_value_flag x : awaits_value x = true -> In x name_flags.
Proof.
  unfold awaits_value, _parse_optional.
  destruct x as [|c0 a']; [discriminate|].
  destruct (negb (Str.contains c0 prefix_chars)) eqn:Hc0; [discriminate|].
  destruct (dict_get _option_string_actions (String c0 a')) as [act|] eqn:Hd.
  { apply dict_get_In in Hd. destruct act; [discriminate|]. intros _.
    simpl in Hd. destruct Hd as [[=]|[[=]|[[= <- <-]|[]]]]. simpl; auto. }
  destruct (String.length (String c0 a') =? 1)%nat eqn:Hlen; [discriminate|].
  destruct a' as [|c1 a'']; [discriminate|].
  apply negb_false_iff, contains_prefix_chars in Hc0; subst c0.
  unfold bind, _get_option_tuples. cbv iota beta.
  change (Str.contains "-" prefix_chars) with true.
  set (x := String "-" (String c1 a'')) in *.
  unfold _option_string_actions at 2 3, flat_map.
  destruct (Str.contains c1 prefix_chars) eqn:Hc1; cbn [andb negb].
  - apply contains_prefix_chars in Hc1; subst c1.
    destruct (Str.split_once "=" x) as [[p e]|] eqn:Hs.
    + destruct (dict_get _option_string_actions p) as [act|];
        [destruct act; discriminate|].
      destruct (Str.startswith "-h" p), (Str.startswith "--help" p),
        (Str.startswith "--name" p); cbn [app ret];
        intros H; split_ifs H; discriminate H.
    + destruct (Str.startswith "--name" x) eqn:Hn,
        (Str.startswith "--help" x) eqn:Hh, (Str.startswith "-h" x);
        cbn [app ret]; intros H; split_ifs H; try discriminate H.
      apply prefix_name in Hn. subst x. simpl in Hn.
      destruct Hn as [[=]|[[=]|[Hn|Hn]]].
      * rewrite <- Hn in Hh. discriminate Hh.
      * simpl. tauto.
  - assert (Hne : c1 <> "-"%char).
    { intros ->. discriminate Hc1. }
    assert (Str.startswith "--name" x = false) as ->
      by (apply prefix_single_dash, Hne).
    assert (Str.eqb "--name" (Str.take 2 x) = false) as ->.
    { apply bool_decide_eq_false_2. discriminate. }
    destruct (Str.split_once "=" x) as [[p e]|];
      [destruct (dict_get _option_string_actions p) as [act|];
         [destruct act; discriminate|]|];
      destruct (Str.eqb "-h" (Str.take 2 x)), (Str.eqb "--help" (Str.take 2 x)),
        (Str.startswith "-h" x), (Str.startswith "--help" x);
      cbn [app ret]; intros H; split_ifs H; discriminate H.
Qed.

Lemma before_final_newline_cases c r :
  before_final_newline (String c r) = EmptyString
  \/ exists b, before_final_newline (String c r) = String c b.
Proof.
  destruct r; simpl.
  - case_bool_decide; [now left|right; now eexists].
  - right. now eexists.
Qed.

Lemma negative_first_char c1 r :
  _negative_number_matcher (String "-" (String c1 r)) = true ->
  Str.isdecimal c1 = true \/ c1 = "."%char.
Proof.
  unfold _negative_number_matcher.
  destruct (before_final_newline_cases c1 r) as [->|(b & ->)];
    [discriminate|].
  intros [H|H]%orb_true_iff.
  - apply andb_true_iff in H as [_ H]. unfold Str.all_decimal in H.
    cbn [list_ascii_of_string forallb] in H.
    apply andb_true_iff in H as [H _]. now left.
  - cbn [Str.split_once] in H. case_bool_decide; [now right|].
    destruct (Str.split_once "." b) as [[w f]|]; [|discriminate].
    apply andb_true_iff in H as [H _]. apply andb_true_iff in H as [H _].
    unfold Str.all_decimal in H. cbn [list_ascii_of_string forallb] in H.
    apply andb_true_iff in H as [H _]. now left.
Qed.

Lemma _get_option_tuples_none c1 a'' s :
  c1 <> "h"%char -> c1 <> "-"%char ->
  _get_option_tuples (String "-" (String c1 a'')) s = (s, Return []).
Proof.
  intros Hh Hd. unfold _get_option_tuples.
  change (Str.contains "-" prefix_chars) with true.
  assert (Str.contains c1 prefix_chars = false) as ->.
  { unfold prefix_chars. simpl. rewrite bool_decide_eq_false_2; auto. }
  cbn [andb negb]. unfold _option_string_actions, flat_map.
  set (x := String "-" (String c1 a'')).
  assert (Str.eqb "-h" (Str.take 2 x) = false) as ->.
  { apply bool_decide_eq_false_2. intros [= E]. now apply Hh. }
  assert (Str.eqb "--help" (Str.take 2 x) = false) as ->.
  { apply bool_decide_eq_false_2. discriminate. }
  assert (Str.eqb "--name" (Str.take 2 x) = false) as ->.
  { apply bool_decide_eq_false_2. discriminate. }
  assert (Str.startswith "--help" x = false) as ->
    by (apply prefix_single_dash, Hd).
  assert (Str.startswith "--name" x = false) as ->
    by (apply prefix_single_dash, Hd).
  assert (Str.startswith "-h" x = false) as ->.
  { unfold Str.startswith, x. simpl.
    destruct (ascii_dec c1 "h"); [contradiction|reflexivity]. }
  reflexivity.
Qed.

Lemma _parse_optional_negative v s :
  _negative_number_matcher v = true ->
  _parse_optional v s = (s, Return None).
Proof.
  intros Hneg. unfold _parse_optional.
  destruct v as [|c0 a']; [reflexivity|].
  destruct (negb (Str.contains c0 prefix_chars)) eqn:Hc0; [reflexivity|].
  apply negb_false_iff, contains_prefix_chars in Hc0; subst c0.
  destruct (dict_get _option_string_actions (String "-" a')) as [act|] eqn:Hd.
  { apply dict_get_In in Hd. simpl in Hd.
    destruct Hd as [[= <- <-]|[[= <- <-]|[[= <- <-]|[]]]];
      discriminate Hneg. }
  destruct (String.length (String "-" a') =? 1)%nat eqn:Hlen; [reflexivity|].
  destruct a' as [|c1 a'']; [discriminate Hlen|].
  assert (Hc1 : c1 <> "h"%char /\ c1 <> "-"%char).
  { destruct (negative_first_char c1 a'' Hneg) as [Hdec| ->];
      [|split; discriminate].
    split; intros ->; discriminate Hdec. }
  destruct Hc1 as [Hh Hdash].
  assert (Heq :
    match Str.split_once "=" (String "-" (String c1 a'')) with
    | Some (option_string, explicit_arg) =>
        match dict_get _option_string_actions option_string with
        | Some action =>
            Some (Some action, option_string, Some explicit_arg)
        | None => None
        end
    | None => None
    end = None).
  { destruct (Str.split_once "=" (String "-" (String c1 a'')))
      as [[p e]|] eqn:Hs; [|reflexivity].
    destruct (dict_get _option_string_actions p) as [act|] eqn:Hp;
      [|reflexivity].
    apply split_once_app in Hs. apply dict_get_In in Hp. simpl in Hp.
    destruct Hp as [[= <- <-]|[[= <- <-]|[[= <- <-]|[]]]];
      injection Hs as Hs _; congruence. }
  rewrite Heq. unfold bind.
  rewrite (_get_option_tuples_none c1 a'' s Hh Hdash), Hneg. reflexivity.
Qed.

Lemma positional_not_dashes v : positional v = true -> Str.eqb v "--" = false.
Proof.
  intros H. apply bool_decide_eq_false_2. intros ->. discriminate H.
Qed.

Lemma _parse_optional_positional v s :
  positional v = true -> _parse_optional v s = (s, Return None).
Proof.
  unfold positional. intros [[H|H]%orb_true_iff|H]%orb_true_iff.
  - now apply _parse_optional_no_dash.
  - apply bool_decide_eq_true_1 in H. now subst.
  - now apply _parse_optional_negative.
Qed.

Lemma nospace_no_blank x :
  Str.nospace x = true -> Str.contains " " x = false.
Proof.
  unfold Str.nospace. induction x as [|c x IH]; [reflexivity|].
  cbn [list_ascii_of_string forallb Str.contains].
  intros [Hc Hx]%andb_true_iff. rewrite (IH Hx), orb_false_r.
  apply bool_decide_eq_false_2. intros <-. discriminate Hc.
Qed.

Lemma _parse_optional_None v s s' :
  token v -> _parse_optional v s = (s', Return None) -> positional v = true.
Proof.
  intros [Hne Hsp]. unfold _parse_optional.
  destruct v as [|c0 a']; [contradiction|].
  destruct (negb (Str.contains c0 prefix_chars)) eqn:Hc0.
  { intros _. unfold positional.
    destruct (no_dash (String c0 a')) eqn:Hnd; [reflexivity|]. exfalso.
    unfold no_dash, Str.startswith in Hnd. cbn [String.prefix] in Hnd.
    destruct (ascii_dec "-" c0) as [<-|]; [discriminate Hc0|discriminate Hnd]. }
  apply negb_false_iff, contains_prefix_chars in Hc0; subst c0.
  destruct (dict_get _option_string_actions (String "-" a')) as [act|];
    [discriminate|].
  destruct (String.length (String "-" a') =? 1)%nat eqn:Hlen.
  { destruct a'; [reflexivity|discriminate Hlen]. }
  destruct a' as [|c1 a'']; [discriminate Hlen|].
  destruct (_get_option_tuples_ok c1 a'') as (l & _ & Hrun).
  set (x := String "-" (String c1 a'')) in *.
  assert (Hfin : forall s0,
    (let (s1, r) := _get_option_tuples x s0 in
     match r with
     | Return option_tuples =>
         match option_tuples with
         | [] =>
             if _negative_number_matcher x
                && negb _has_negative_number_optionals
             then ret None
             else if Str.contains " " x then ret None
                  else ret (Some (None, x, None))
         | [option_tuple] => ret (Some option_tuple)
         | _ :: _ :: _ =>
             error (ambiguous_option x
                      (map (fun '(_, option_string, _) => option_string)
                         option_tuples))
         end s1
     | Raise e => (s1, Raise e)
     | OutOfFuel => (s1, OutOfFuel)
     end) = (s', Return None) -> positional x = true).
  { intros s0. rewrite Hrun. destruct l as [|t [|t' l]];
      [|discriminate..].
    destruct (_negative_number_matcher x) eqn:Hneg.
    - intros _. unfold positional. rewrite Hneg. apply orb_true_r.
    - rewrite (nospace_no_blank x Hsp). discriminate. }
  destruct (Str.split_once "=" x) as [[p e]|];
    [destruct (dict_get _option_string_actions p); [discriminate|]|];
    apply Hfin.
Qed.

(** The only strings that [_parse_optional] finds ambiguous start
    with [--=]. *)
Lemma _parse_optional_ambiguous rest s :
  _parse_optional ("--=" ++ rest) s
  = error (ambiguous_option ("--=" ++ rest) ["--help"; "--name"]) s.
Proof. reflexivity. Qed.

Lemma startswith_app t p :
  Str.startswith t p = true -> exists r, t = (p ++ r)%string.
Proof.
  unfold Str.startswith. revert t; induction p as [|c p IH]; intros t.
  - intros _. now exists t.
  - destruct t as [|d t]; [discriminate|]. simpl.
    destruct (ascii_dec c d) as [->|]; [|discriminate].
    intros H. destruct (IH t H) as (r & ->). now exists r.
Qed.

Lemma name_flag_not_dashes flag :
  In flag name_flags -> Str.eqb flag "--" = false.
Proof. simpl. intros [<-|[<-|[<-|[<-|[]]]]]; reflexivity. Qed.

Lemma parse_flag_positional flag value s :
  In flag name_flags -> positional value = true ->
  parse [flag; value] s = denote (Parsed {| name := VStr value |}) s.
Proof.
  intros Hflag Hv. unfold parse, try_ArgumentError, bind. cbn [classify].
  rewrite (name_flag_not_dashes flag Hflag), (positional_not_dashes value Hv).
  unfold bind. rewrite (_parse_optional_flag flag s Hflag).
  rewrite (_parse_optional_positional value s Hv).
  cbn [ret zip_with consume].
  now rewrite _get_values_store, (positional_not_dashes value Hv).
Qed.

Lemma parse_flag_option flag value :
  In flag name_flags -> token value -> positional value = false ->
  exists m, forall s, parse [flag; value] s = denote (Rejected m) s.
Proof.
  intros Hflag Htok Hv.
  destruct (decide (value = "--")) as [->|Hdd].
  { eexists. intros s. unfold parse, try_ArgumentError, bind. cbn [classify].
    rewrite (name_flag_not_dashes flag Hflag). unfold bind.
    rewrite (_parse_optional_flag flag s Hflag). reflexivity. }
  destruct (_parse_optional_cases value) as [(r & _ & Hr)|(m & Hm)].
  - destruct r as [t|].
    + eexists. intros s. unfold parse, try_ArgumentError, bind.
      cbn [classify]. rewrite (name_flag_not_dashes flag Hflag).
      unfold Str.eqb. rewrite (bool_decide_eq_false_2 _ Hdd). unfold bind.
      rewrite (_parse_optional_flag flag s Hflag), Hr. reflexivity.
    + rewrite (_parse_optional_None value io0 io0 Htok (Hr io0)) in Hv.
      discriminate Hv.
  - exists m. intros s. unfold parse, try_ArgumentError, bind.
    cbn [classify]. rewrite (name_flag_not_dashes flag Hflag).
    unfold Str.eqb. rewrite (bool_decide_eq_false_2 _ Hdd). unfold bind.
    rewrite (_parse_optional_flag flag s Hflag), Hm. reflexivity.
Qed.

Lemma classify_ambiguous xs t ys :
  Forall (fun x => x <> "--") xs -> Str.startswith t "--=" = true ->
  exists m, forall s, classify (xs ++ t :: ys) s = error m s.
Proof.
  intros Hxs Ht. destruct (startswith_app t "--=" Ht) as (rest & ->).
  destruct (classify_cases xs) as [(cs1 & _ & Hcs)|(m & Hm)].
  - eexists. intros s. rewrite classify_app by exact Hxs.
    unfold bind at 1. rewrite Hcs. unfold bind at 1. cbn [classify].
    change (Str.eqb ("--=" ++ rest) "--") with false. cbv iota.
    unfold bind at 1. rewrite _parse_optional_ambiguous. reflexivity.
  - exists m. intros s. rewrite classify_app by exact Hxs.
    unfold bind at 1. now rewrite Hm.
Qed.

(** ** Strings the parser cannot classify *)

Lemma prefix_help_name p :
  String.prefix p "--help" = true -> String.prefix p "--name" = true ->
  In p [EmptyString; "-"; "--"].
Proof.
  intros Hh Hn. apply prefix_name in Hn. simpl in Hn.
  destruct Hn as [<-|[<-|[<-|[<-|[<-|[<-|[<-|[]]]]]]]]; simpl; auto;
    discriminate Hh.
Qed.

Lemma prefix_h p :
  String.prefix p "-h" = true -> In p [EmptyString; "-"; "-h"].
Proof.
  intros H.
  repeat (apply prefix_inv in H as [->|(? & -> & H)]; [simpl; auto 10|]).
  apply prefix_nil in H as ->. simpl; auto 10.
Qed.

Ltac return_some :=
  repeat match goal with
         | |- context [if ?b then _ else _] => destruct b
         end;
  eexists; intros ?; reflexivity.

Lemma _parse_optional_total t :
  Str.startswith t "--=" = false -> t <> "--" ->
  exists r, forall s, _parse_optional t s = (s, Return r).
Proof.
  intros Hamb Hdd. unfold _parse_optional.
  destruct t as [|c0 a']; [now eexists|].
  destruct (negb (Str.contains c0 prefix_chars)) eqn:Hc0; [now eexists|].
  destruct (dict_get _option_string_actions (String c0 a')) as [act|];
    [now eexists|].
  destruct (String.length (String c0 a') =? 1)%nat eqn:Hlen; [now eexists|].
  destruct a' as [|c1 a'']; [discriminate|].
  apply negb_false_iff, contains_prefix_chars in Hc0; subst c0.
  unfold bind, _get_option_tuples. cbv iota beta.
  change (Str.contains "-" prefix_chars) with true.
  set (x := String "-" (String c1 a'')) in *.
  unfold _option_string_actions at 2 3, flat_map.
  destruct (Str.contains c1 prefix_chars) eqn:Hc1; cbn [andb negb].
  - apply contains_prefix_chars in Hc1; subst c1.
    destruct (Str.split_once "=" x) as [[p e]|] eqn:Hs.
    + destruct (dict_get _option_string_actions p) as [act|];
        [now eexists|].
      apply split_once_app in Hs.
      assert (Hp : ~ In p [EmptyString; "-"; "--"; "-h"]).
      { simpl. intros [H|[H|[H|[H|[]]]]]; subst p x; try discriminate Hs.
        injection Hs as ->. destruct e; discriminate Hamb. }
      destruct (Str.startswith "-h" p) eqn:B1.
      { exfalso. apply Hp. apply prefix_h in B1. simpl in *. tauto. }
      destruct (Str.startswith "--help" p) eqn:B2,
        (Str.startswith "--name" p) eqn:B3; cbn [app ret];
        try return_some.
      exfalso. apply Hp. pose proof (prefix_help_name p B2 B3) as H.
      simpl in *. tauto.
    + assert (Str.startswith "-h" x = false) as -> by reflexivity.
      destruct (Str.startswith "--help" x) eqn:B2,
        (Str.startswith "--name" x) eqn:B3; cbn [app ret];
        try return_some.
      exfalso. pose proof (prefix_help_name x B2 B3) as H. simpl in H.
      destruct H as [H|[H|[H|[]]]]; try discriminate H.
      apply Hdd. now rewrite <- H.
  - assert (Hne : c1 <> "-"%char).
    { intros ->. discriminate Hc1. }
    assert (Str.startswith "--name" x = false) as ->
      by (apply prefix_single_dash, Hne).
    assert (Str.startswith "--help" x = false) as ->
      by (apply prefix_single_dash, Hne).
    assert (Str.eqb "--name" (Str.take 2 x) = false) as ->.
    { apply bool_decide_eq_false_2. discriminate. }
    assert (Str.eqb "--help" (Str.take 2 x) = false) as ->.
    { apply bool_decide_eq_false_2. discriminate. }
    destruct (Str.split_once "=" x) as [[p e]|];
      [destruct (dict_get _option_string_actions p) as [act|];
         [now eexists|]|];
      destruct (Str.eqb "-h" (Str.take 2 x)), (Str.startswith "-h" x);
      cbn [app ret]; return_some.
Qed.

Lemma classify_total ys :
  Forall (fun t => Str.startswith t "--=" = false) ys ->
  exists cs, length ys = length cs
             /\ forall s, classify ys s = (s, Return cs).
Proof.
  induction 1 as [|t ys Ht _ (cs & Hlen & Hcs)].
  - now exists [].
  - cbn [classify]. unfold Str.eqb. case_bool_decide as Hdd.
    + eexists. split; [|intros s; reflexivity].
      simpl. now rewrite repeat_length.
    + destruct (_parse_optional_total t Ht Hdd) as (r & Hr).
      eexists. split; [|intros s; unfold bind; rewrite Hr, Hcs; reflexivity].
      simpl. now rewrite Hlen.
Qed.

Lemma _parse_optional_help h s :
  In h help_flags ->
  exists os, _parse_optional h s = (s, Return (Some (Some _HelpAction, os, None)))
             /\ Str.eqb h "--" = false.
Proof.
  simpl. intros [<-|[<-|[<-|[<-|[<-|[]]]]]]; eexists; split; reflexivity.
Qed.

Lemma parse_help_after xs h ys ns :
  Forall (fun x => x <> "--") xs -> In h help_flags ->
  Forall (fun t => Str.startswith t "--=" = false) ys ->
  (forall s, parse xs s = denote (Parsed ns) s) ->
  forall s, parse (xs ++ h :: ys) s = denote HelpShown s.
Proof.
  intros Hxs Hh Hys Hp s. specialize (Hp s). revert Hp.
  unfold parse, try_ArgumentError. unfold bind at 1 2.
  rewrite classify_app by exact Hxs. unfold bind at 1 2.
  destruct (classify_cases xs) as [(cs1 & Hrel & Hcs)|(m & Hm)].
  - rewrite Hcs. cbn [classify].
    destruct (_parse_optional_help h s Hh) as (os & Hho & ->).
    destruct (classify_total ys Hys) as (cs2 & _ & Hcs2).
    unfold bind at 1. rewrite Hho. unfold bind at 1. rewrite Hcs2.
    unfold ret.
    pose proof (Forall2_length _ _ _ Hrel) as Hlen.
    rewrite zip_with_app by exact Hlen. cbn [zip_with].
    set (items := zip_with pair xs cs1). set (ns0 := {| name := VNone |}).
    assert (Hcases :
      (forall x, last items = Some x -> ~ awaiting (snd x))
      \/ exists x, last items = Some x /\ awaiting (snd x)).
    { destruct (last items) as [x|]; [|left; discriminate].
      destruct (awaiting_dec (snd x)) as [Ha|Ha].
      - right. now exists x.
      - left. now intros ? [= <-]. }
    destruct Hcases as [Hlast|Hlast].
    + rewrite (consume_app (length items)) by (lia || exact Hlast).
      unfold bind. destruct (consume items ns0 s) as [s1 [ns1|e|]] eqn:Hc.
      * intros [= -> _]. reflexivity.
      * intros Hp. exfalso. destruct e as [a m| | | | |]; discriminate Hp.
      * discriminate.
    + destruct (consume_awaiting_last (length items) items [] ns0 s
                  (le_n _) Hlast I) as [_ Hnr].
      intros Hp. exfalso. not_parsed Hp Hnr.
  - rewrite Hm. discriminate.
Qed.

Lemma string_app_inv_tail (a b c : string) :
  (a ++ c = b ++ c)%string -> a = b.
Proof.
  intros H.
  assert (Hl : list_ascii_of_string a ++ list_ascii_of_string c
               = list_ascii_of_string b ++ list_ascii_of_string c).
  { rewrite <- !list_ascii_app. now rewrite H. }
  apply app_inv_tail in Hl.
  rewrite <- (string_of_list_ascii_of_string a),
    <- (string_of_list_ascii_of_string b). now rewrite Hl.
Qed.

(** ** Where the name comes from *)

Lemma store_explicit_flag a s s' os e :
  _parse_optional a s
  = (s', Return (Some (Some _StoreAction, os, Some e))) ->
  exists flag, In flag name_flags /\ a = (flag ++ "=" ++ e)%string.
Proof.
  unfold _parse_optional.
  destruct a as [|c0 a']; [discriminate|].
  destruct (negb (Str.contains c0 prefix_chars)) eqn:Hc0; [discriminate|].
  destruct (dict_get _option_string_actions (String c0 a')) as [act|];
    [discriminate|].
  destruct (String.length (String c0 a') =? 1)%nat eqn:Hlen; [discriminate|].
  destruct a' as [|c1 a'']; [discriminate|].
  apply negb_false_iff, contains_prefix_chars in Hc0; subst c0.
  unfold bind, _get_option_tuples. cbv iota beta.
  change (Str.contains "-" prefix_chars) with true.
  set (x := String "-" (String c1 a'')) in *.
  unfold _option_string_actions at 2 3, flat_map.
  destruct (Str.split_once "=" x) as [[p e0]|] eqn:Hs.
  - apply split_once_app in Hs.
    destruct (dict_get _option_string_actions p) as [act|] eqn:Hp.
    { intros [= _ -> <- <-]. apply dict_get_In in Hp. simpl in Hp.
      destruct Hp as [[=]|[[=]|[[= <-]|[]]]].
      exists "--name". split; [simpl; auto|exact Hs]. }
    destruct (Str.contains c1 prefix_chars) eqn:Hc1; cbn [andb negb].
    + apply contains_prefix_chars in Hc1; subst c1.
      destruct (Str.startswith "--name" p) eqn:Hn,
        (Str.startswith "--help" p) eqn:Hh, (Str.startswith "-h" p);
        cbn [app ret]; intros H; split_ifs H; try discriminate H.
      injection H as _ <- <-. exists p. split; [|exact Hs].
      apply prefix_name in Hn. simpl in Hn.
      destruct Hn as [Hn|[Hn|[Hn|Hn]]]; subst; try discriminate Hs;
        [discriminate Hh|simpl; tauto].
    + assert (Hne : c1 <> "-"%char).
      { intros ->. discriminate Hc1. }
      assert (Str.startswith "--name" x = false) as ->
        by (apply prefix_single_dash, Hne).
      assert (Str.eqb "--name" (Str.take 2 x) = false) as ->.
      { apply bool_decide_eq_false_2. discriminate. }
      destruct (Str.eqb "-h" (Str.take 2 x)), (Str.eqb "--help" (Str.take 2 x)),
        (Str.startswith "-h" x), (Str.startswith "--help" x);
        cbn [app ret]; intros H; split_ifs H; discriminate H.
  - destruct (Str.contains c1 prefix_chars) eqn:Hc1; cbn [andb negb].
    + destruct (Str.startswith "--name" x), (Str.startswith "--help" x),
        (Str.startswith "-h" x);
        cbn [app ret]; intros H; split_ifs H; discriminate H.
    + assert (Hne : c1 <> "-"%char).
      { intros ->. discriminate Hc1. }
      assert (Str.startswith "--name" x = false) as ->
        by (apply prefix_single_dash, Hne).
      assert (Str.eqb "--name" (Str.take 2 x) = false) as ->.
      { apply bool_decide_eq_false_2. discriminate. }
      destruct (Str.eqb "-h" (Str.take 2 x)), (Str.eqb "--help" (Str.take 2 x)),
        (Str.startswith "-h" x), (Str.startswith "--help" x);
        cbn [app ret]; intros H; split_ifs H; discriminate H.
Qed.

Lemma classify_classes args s s' cs :
  classify args s = (s', Return cs) -> Forall2 class_of_token args cs.
Proof.
  revert s s' cs; induction args as [|a rest IH]; intros s s' cs H.
  - injection H as _ <-. constructor.
  - cbn [classify] in H. destruct (Str.eqb a "--").
    + injection H as _ <-. constructor; [exact I|].
      clear. induction rest; simpl; constructor; [exact I|assumption].
    + unfold bind in H.
      destruct (_parse_optional a s) as [s1 [r| |]] eqn:Ha;
        try discriminate H.
      destruct (classify rest s1) as [s2 [cs'| |]] eqn:Hr;
        try discriminate H.
      injection H as _ <-. constructor; [|now apply (IH s1 s2)].
      destruct r as [t|]; [|exact I].
      intros s0. exact (_parse_optional_Return a s s1 (Some t) Ha s0).
Qed.

Lemma named_by_cons a args x : named_by args x -> named_by (a :: args) x.
Proof.
  intros [(flag & Hf & Hin)|(flag & l1 & l2 & Hf & ->)].
  - left. exists flag. split; [exact Hf|now right].
  - right. now exists flag, (a :: l1), l2.
Qed.

Lemma consume_named n args cs ns s s' ns' :
  length args <= n -> Forall2 class_of_token args cs ->
  consume (zip args cs) ns s = (s', Return ns') ->
  ns' = ns
  \/ exists x, name ns' = _get_values _StoreAction [x] /\ named_by args x.
Proof.
  revert args cs ns s; induction n as [|n IH];
    intros args cs ns s Hn Hrel H.
  { destruct Hrel; [|simpl in Hn; lia]. injection H as _ <-. now left. }
  destruct Hrel as [|a c args cs Hac Hrel].
  { injection H as _ <-. now left. }
  simpl in Hn. cbn [zip_with] in H.
  assert (Hweak : forall ns0 s0,
    consume (zip args cs) ns0 s0 = (s', Return ns') ->
    ns' = ns0
    \/ exists x, name ns' = _get_values _StoreAction [x]
                 /\ named_by (a :: args) x).
  { intros ns0 s0 H0.
    destruct (IH args cs ns0 s0 ltac:(lia) Hrel H0) as [->|(x & Hx & Hby)];
      [now left|right].
    exists x. split; [exact Hx|now apply named_by_cons]. }
  destruct c as [| |t]; [now apply Hweak in H|now apply Hweak in H|].
  destruct t as [[oa os] oe]. destruct oa as [[|]|]; destruct oe as [e|];
    cbn [consume] in H.
  - unfold bind, consume_explicit in H.
    destruct (Str.eqb os "-h" && negb (Str.eqb e EmptyString));
      [destruct (not_h e)|]; discriminate H.
  - discriminate H.
  - unfold bind, consume_explicit, ret in H. apply Hweak in H.
    destruct H as [->|H]; [|now right]. right. exists e.
    split; [reflexivity|]. left. simpl in Hac.
    destruct (store_explicit_flag a io0 io0 os e (Hac io0))
      as (flag & Hf & ->).
    exists flag. split; [exact Hf|now left].
  - destruct Hrel as [|v c' args' cs' Hvc Hrel']; [discriminate H|].
    cbn [zip_with] in H. destruct c'; try discriminate H.
    simpl in Hn.
    destruct (IH args' cs' _ s ltac:(lia) Hrel' H) as [->|(x & Hx & Hby)];
      right.
    + exists v. split; [reflexivity|]. right. exists a, [], args'.
      split; [|reflexivity]. apply awaits_value_flag.
      unfold awaits_value. simpl in Hac. now rewrite Hac.
    + exists x. split; [exact Hx|]. now do 2 apply named_by_cons.
  - now apply Hweak in H.
  - now apply Hweak in H.
Qed.

Lemma parse_named args ns :
  parse args io0 = (io0, Return ns) ->
  ns = {| name := VNone |}
  \/ exists x, name ns = _get_values _StoreAction [x] /\ named_by args x.
Proof.
  unfold parse, try_ArgumentError, bind.
  destruct (classify args io0) as [s1 [cs|e|]] eqn:Hcl;
    [|destruct e; discriminate|discriminate].
  destruct (consume (zip args cs) {| name := VNone |} s1)
    as [s2 [ns2|e|]] eqn:Hc; [|destruct e; discriminate|discriminate].
  intros [= _ <-].
  exact (consume_named (length args) args cs _ s1 s2 ns2 (le_n _)
           (classify_classes args io0 s1 cs Hcl) Hc).
Qed.


(** ** Tokens that are none of the parser's *)

Lemma foreign_unrecognised t : foreign t = unrecognised t.
Proof.
  unfold foreign, unrecognised, _parse_optional.
  destruct t as [|c0 a']; [reflexivity|].
  destruct a' as [|c1 a''].
  { unfold prefix_chars. cbn [Str.contains]. unfold Str.eqb.
    rewrite (bool_decide_eq_false_2 (String c0 EmptyString = "--"))
      by discriminate.
    destruct (bool_decide (c0 = "-"%char)) eqn:Hc0; cbn [orb negb andb].
    - apply bool_decide_eq_true_1 in Hc0. subst c0. reflexivity.
    - reflexivity. }
  assert (Hc : Str.contains c0 prefix_chars = bool_decide (c0 = "-"%char)).
  { unfold prefix_chars. cbn [Str.contains]. now rewrite orb_false_r. }
  rewrite Hc. destruct (bool_decide (c0 = "-"%char)) eqn:Hc0; cbn [negb].
  2:{ unfold Str.eqb. rewrite bool_decide_eq_false_2; [reflexivity|].
      intros [= -> _]. discriminate Hc0. }
  apply bool_decide_eq_true_1 in Hc0. subst c0.
  set (x := String "-" (String c1 a'')).
  assert (Hc1 : Str.contains c1 prefix_chars = bool_decide (c1 = "-"%char)).
  { unfold prefix_chars. cbn [Str.contains]. now rewrite orb_false_r. }
  destruct (bool_decide (c1 = "-"%char)) eqn:Hd.
  - apply bool_decide_eq_true_1 in Hd. subst c1.
    destruct (Str.eqb x "--") eqn:Hdd; cbn [negb andb]; [reflexivity|].
    destruct (dict_get _option_string_actions x) as [act|] eqn:Hx.
    { apply dict_get_In in Hx. subst x. simpl in Hx.
      destruct Hx as [Hx|[Hx|[Hx|[]]]]; try discriminate Hx;
        injection Hx as <- <-; reflexivity. }
    change (String.length x =? 1)%nat with false. cbv iota.
    unfold bind, _get_option_tuples. subst x. cbv iota beta.
    change (Str.contains "-" prefix_chars) with true. cbn [andb negb].
    set (x := String "-" (String "-" a'')) in *.
    destruct (Str.split_once "=" x) as [[q e]|] eqn:Hs.
    + destruct (dict_get _option_string_actions q) as [act|] eqn:Hq.
      { apply dict_get_In in Hq. simpl in Hq.
        destruct Hq as [[= <- _]|[[= <- _]|[[= <- _]|[]]]];
          [|reflexivity..].
        apply split_once_app in Hs. subst x. discriminate Hs. }
      unfold _option_string_actions, flat_map.
      assert (Str.startswith "-h" q = false) as ->.
      { apply split_once_app in Hs. subst x.
        destruct q as [|q0 [|q1 q]]; try discriminate Hs.
        injection Hs as <- <- _. reflexivity. }
      destruct (Str.startswith "--help" q), (Str.startswith "--name" q);
        cbn [app negb andb ret]; try reflexivity.
      destruct (_negative_number_matcher x && negb _has_negative_number_optionals);
        [reflexivity|].
      now destruct (Str.contains " " x).
    + unfold _option_string_actions, flat_map.
      assert (Str.startswith "-h" x = false) as -> by reflexivity.
      destruct (Str.startswith "--help" x), (Str.startswith "--name" x);
        cbn [app negb andb ret]; try reflexivity.
      destruct (_negative_number_matcher x && negb _has_negative_number_optionals);
        [reflexivity|].
      now destruct (Str.contains " " x).
  - assert (Hne : c1 <> "-"%char).
    { intros ->. discriminate Hd. }
    assert (Str.eqb x "--" = false) as ->.
    { apply bool_decide_eq_false_2. intros [= E]. now apply Hne. }
    cbn [negb andb].
    destruct (bool_decide (c1 = "h"%char)) eqn:Hh; cbn [negb].
    + apply bool_decide_eq_true_1 in Hh. subst c1.
      destruct (dict_get _option_string_actions x) as [act|] eqn:Hx;
        [reflexivity|].
      destruct a'' as [|c2 rest]; [discriminate Hx|].
      change (String.length x =? 1)%nat with false. cbv iota.
      unfold bind, _get_option_tuples. subst x. cbv iota beta.
      change (Str.contains "-" prefix_chars) with true.
      change (Str.contains "h" prefix_chars) with false. cbn [andb negb].
      set (x := String "-" (String "h" (String c2 rest))) in *.
      destruct (Str.split_once "=" x) as [[q e]|];
        [destruct (dict_get _option_string_actions q) as [act|];
           [reflexivity|]|];
        unfold _option_string_actions, flat_map;
        change (Str.eqb "-h" (Str.take 2 x)) with true; cbv iota;
        change (Str.eqb "--help" (Str.take 2 x)) with false;
        change (Str.eqb "--name" (Str.take 2 x)) with false;
        change (Str.startswith "--help" x) with false;
        change (Str.startswith "--name" x) with false;
        reflexivity.
    + assert (Hnh : c1 <> "h"%char).
      { intros ->. discriminate Hh. }
      destruct (dict_get _option_string_actions x) as [act|] eqn:Hx.
      { apply dict_get_In in Hx. subst x. simpl in Hx.
        destruct Hx as [Hx|[Hx|[Hx|[]]]]; injection Hx as Hx _;
          congruence. }
      destruct (String.length x =? 1)%nat; [reflexivity|].
      assert (Heq :
        match Str.split_once "=" x with
        | Some (option_string, explicit_arg) =>
            match dict_get _option_string_actions option_string with
            | Some action =>
                Some (Some action, option_string, Some explicit_arg)
            | None => None
            end
        | None => None
        end = None).
      { destruct (Str.split_once "=" x) as [[q e]|] eqn:Hs; [|reflexivity].
        destruct (dict_get _option_string_actions q) as [act|] eqn:Hq;
          [|reflexivity].
        apply split_once_app in Hs. apply dict_get_In in Hq. simpl in Hq.
        subst x.
        destruct Hq as [[= <- _]|[[= <- _]|[[= <- _]|[]]]];
          injection Hs as Hs _; congruence. }
      rewrite Heq. unfold bind. subst x.
      rewrite (_get_option_tuples_none c1 a'' io0 Hnh Hne).
      destruct (_negative_number_matcher _ && negb _has_negative_number_optionals);
        [reflexivity|].
      now destruct (Str.contains " " _).
Qed.

(** ** Runs by the value of the variable *)

Lemma args_of_Some p v : os_environ p !! VAR = Some v -> args_of p = v.
Proof. unfold VAR, args_of. now intros ->. Qed.

Lemma tokens_of_Some p v :
  os_environ p !! VAR = Some v -> tokens_of p = Str.split v.
Proof. intros Hv. unfold tokens_of. now rewrite (args_of_Some p v Hv). Qed.

Lemma printed_default p : printed p default_greeting = completed default_greeting.
Proof. reflexivity. Qed.

Lemma printed_encodable p g :
  encodable p g = true -> printed p g = completed g.
Proof. unfold printed. now intros ->. Qed.

Lemma printed_unencodable p g :
  encodable p g = false -> printed p g = crashed.
Proof. unfold printed. now intros ->. Qed.

Lemma encodable_false p x :
  encodable p x = false -> exists c, stdout_encodes p c = false.
Proof.
  unfold encodable. induction (list_ascii_of_string x) as [|c l IH];
    [discriminate|].
  simpl. destruct (stdout_encodes p c) eqn:Hc; [|now exists c].
  rewrite orb_true_r. exact IH.
Qed.

Lemma run_default p :
  args_of p = EmptyString -> run p = Some (completed default_greeting).
Proof.
  intros He. rewrite <- (printed_default p).
  apply (run_of_tokens p (Parsed {| name := VNone |})).
  unfold tokens_of. now rewrite He.
Qed.

Lemma run_returned p s s' ns unknown :
  parse_known_args (tokens_of p) s = (s', Return (ns, unknown)) ->
  name_ok ns /\ run p = Some (printed p (greeting_of (name ns))).
Proof.
  intros Hpk. destruct (run_cases p) as (r & Hok & Hp & Hrun).
  pose proof (parse_known_args_Return _ _ _ _ _ r Hpk Hp) as ->.
  split; [now apply Hok|exact Hrun].
Qed.

Lemma run_rejected p s s' :
  parse_known_args (tokens_of p) s = (s', Raise (SystemExit 2)) ->
  exists m, run p = Some (rejected p m).
Proof.
  intros Hpk. destruct (run_cases p) as (r & _ & Hp & Hrun).
  destruct (parse_known_args_rejected _ _ _ r Hpk Hp) as (m & ->).
  now exists m.
Qed.

Lemma greeting_of_named x :
  x <> EmptyString -> greeting_of (VStr x) = ("Hello, " ++ x ++ "!")%string.
Proof.
  intros Hx. unfold greeting_of. cbn [truthy format]. unfold Str.eqb.
  now rewrite (bool_decide_eq_false_2 _ Hx).
Qed.

Lemma greeting_of_falsy v :
  truthy v = false -> greeting_of v = default_greeting.
Proof. unfold greeting_of. now intros ->. Qed.

Lemma run_flag_value p flag value :
  In flag name_flags -> token value -> positional value = true ->
  os_environ p !! VAR = Some (flag ++ " " ++ value)%string ->
  run p = Some (printed p ("Hello, " ++ value ++ "!")).
Proof.
  intros Hflag Hvalue Hpos Hv.
  rewrite (run_of_tokens p (Parsed {| name := VStr value |})).
  - cbn [run_of name]. now rewrite greeting_of_token.
  - intros s. rewrite (tokens_of_Some p _ Hv).
    rewrite split_two by (assumption || now apply token_flag).
    now apply parse_flag_positional.
Qed.

Lemma run_flag_eq p flag value :
  In flag name_flags -> token value -> value <> "--" ->
  os_environ p !! VAR = Some (flag ++ "=" ++ value)%string ->
  run p = Some (printed p ("Hello, " ++ value ++ "!")).
Proof.
  intros Hflag Hvalue Hdd Hv.
  rewrite (run_of_tokens p
             (Parsed {| name := _get_values _StoreAction [value] |})).
  - cbn [run_of name]. rewrite _get_values_store. unfold Str.eqb.
    rewrite (bool_decide_eq_false_2 _ Hdd). now rewrite greeting_of_token.
  - intros s. rewrite (tokens_of_Some p _ Hv).
    rewrite split_one by (destruct Hvalue; now apply token_flag_eq).
    now apply parse_flag_eq.
Qed.

Lemma positional_no_dash v : no_dash v = true -> positional v = true.
Proof. unfold positional. now intros ->. Qed.

(** ** The line between the quotes *)

Lemma string_length_app a b :
  String.length (a ++ b) = String.length a + String.length b.
Proof.
  induction a as [|c a IH]; [reflexivity|].
  change (S (String.length (a ++ b)) = S (String.length a + String.length b)).
  now rewrite IH.
Qed.

Lemma greeting_of_length v : 0 < String.length (greeting_of v).
Proof.
  unfold greeting_of. destruct (truthy v); [|unfold default_greeting];
    simpl; lia.
Qed.

Lemma quoted_inj (g1 g2 : string) :
  ("DEMO_GREETING="
   ++ String "034" (g1 ++ String "034" (String "010" EmptyString)))%string
  = ("DEMO_GREETING="
     ++ String "034" (g2 ++ String "034" (String "010" EmptyString)))%string ->
  g1 = g2.
Proof.
  intros H. injection H as H.
  change ((g1 ++ String "034" (String "010" EmptyString))%string
          = (g2 ++ String "034" (String "010" EmptyString))%string) in H.
  now apply string_app_inv_tail in H.
Qed.

Lemma completed_inj g1 g2 : completed g1 = completed g2 -> g1 = g2.
Proof.
  intros H. apply (f_equal out) in H. cbn [out completed] in H.
  apply quoted_inj. congruence.
Qed.

Lemma hello_inj (v1 v2 : string) :
  ("Hello, " ++ v1 ++ "!")%string = ("Hello, " ++ v2 ++ "!")%string -> v1 = v2.
Proof.
  intros H. injection H as H.
  change ((v1 ++ "!")%string = (v2 ++ "!")%string) in H.
  now apply string_app_inv_tail in H.
Qed.

(** * The claims *)

(** ** C1: exit status *)

(** C1, as stated, fails: for UBER_GLOBAL_COMMAND_ARGS="--name" argparse
    finds no value for the flag, calls [parser.error] and the process
    exits with status 2. *)
Lemma C1_exit_status_counterexample :
  option_map returncode (run (utf8_process (with_args "--name"))) = Some 2%Z.
Proof. reflexivity. Qed.

(** C1, amended: for every value of UBER_GLOBAL_COMMAND_ARGS the program
    terminates.  The exit status is 0; or it is 2, and then argparse
    rejected the tokens: standard output is empty and standard error
    holds the usage and one error message; or it is 1, and then [print]
    raised [UnicodeEncodeError]: standard output is empty, standard
    error holds the traceback, and standard output cannot encode some
    character.  The status is 0 whenever no token starts with a dash, in
    particular for an absent or empty value. *)
Theorem C1_exit_status (p : process) :
  exists r,
    run p = Some r
    /\ (returncode r = 0%Z
        \/ (returncode r = 2%Z /\ out r = []
            /\ exists m,
                 err r = [format_usage (terminal_size_of p); error_text m])
        \/ (returncode r = 1%Z /\ out r = []
            /\ err r = [traceback UnicodeEncodeError]
            /\ exists c, stdout_encodes p c = false))
    /\ (Forall (fun t => no_dash t = true) (tokens_of p)
        -> returncode r = 0%Z).
Proof.
  destruct (run_cases p) as (r & _ & _ & Hrun).
  exists (run_of p r). split; [exact Hrun|]. split.
  - destruct r as [ns| |m].
    + cbn [run_of]. unfold printed.
      destruct (encodable p (greeting_of (name ns))) eqn:He; [now left|].
      right; right. repeat split. exact (encodable_false p _ He).
    + now left.
    + right; left. repeat split. now exists m.
  - intros Hnd.
    rewrite (run_of_tokens p (Parsed {| name := VNone |})) in Hrun
      by (intros s; now apply parse_no_dash).
    injection Hrun as <-. reflexivity.
Qed.

Lemma C1_exit_status_witness :
  Forall (fun t => no_dash t = true)
    (tokens_of (utf8_process (with_args "foo bar")))
  /\ option_map returncode (run (utf8_process (with_args "foo bar")))
     = Some 0%Z.
Proof.
  split; [repeat constructor|].
  destruct (C1_exit_status (utf8_process (with_args "foo bar")))
    as (r & Hrun & _ & H0).
  rewrite Hrun. simpl. f_equal. apply H0. repeat constructor.
Defined.

(** ** C2: the flag without a value *)

(** C2, as stated, fails: for UBER_GLOBAL_COMMAND_ARGS="--name" standard
    output is not the line of the default greeting; nothing is written
    to it. *)
Lemma C2_name_without_value_counterexample :
  option_map out (run (utf8_process (with_args "--name")))
  <> Some [Text ("DEMO_GREETING="
                 ++ String "034"
                      ("Hello from the env_setup.py script!"
                       ++ String "034" (String "010" EmptyString)))%string].
Proof. discriminate. Qed.

(** C2, amended: when UBER_GLOBAL_COMMAND_ARGS is exactly "--name",
    argparse reports that the argument --name expects one argument: the
    usage and the error message go to standard error, nothing is written
    to standard output, and the exit status is 2. *)
Theorem C2_name_without_value (p : process) :
  os_environ p !! VAR = Some "--name" ->
  run p
  = Some {| out := [];
            err := [format_usage (terminal_size_of p);
                    error_text (argument "--name" expected_one_argument)];
            returncode := 2 |}.
Proof.
  intros Hv.
  apply (run_of_tokens p
           (Rejected (argument "--name" expected_one_argument))).
  rewrite (tokens_of_Some p _ Hv). intros s.
  (* the only token is the flag: class 'O', and no 'A' follows it *)
  reflexivity.
Qed.

Lemma C2_name_without_value_witness :
  os_environ (utf8_process (with_args "--name")) !! VAR = Some "--name"
  /\ run (utf8_process (with_args "--name"))
     = Some {| out := [];
               err := [format_usage
                         (terminal_size_of (utf8_process (with_args "--name")));
                       error_text (argument "--name" expected_one_argument)];
               returncode := 2 |}.
Proof.
  split; [reflexivity|].
  apply (C2_name_without_value (utf8_process (with_args "--name"))).
  reflexivity.
Defined.

(** ** C3: standard output *)

(** C3, as stated, fails: for UBER_GLOBAL_COMMAND_ARGS="--name -v"
    argparse rejects the tokens and the program writes nothing to
    standard output. *)
Lemma C3_stdout_counterexample :
  option_map out (run (utf8_process (with_args "--name -v"))) = Some [].
Proof. reflexivity. Qed.

(** C3, amended.  When UBER_GLOBAL_COMMAND_ARGS is absent or empty,
    standard output is exactly the line of the default greeting.
    Whenever [parse_known_args] returns, the greeting holds no line
    feed, and standard output is exactly one line, DEMO_GREETING=, a
    double quote, the greeting, a double quote and a line feed, provided
    standard output can encode the greeting; when it cannot, nothing is
    written to standard output.  When argparse rejects the tokens,
    standard output is empty. *)
Theorem C3_stdout (p : process) :
  (args_of p = EmptyString ->
   option_map out (run p)
   = Some [Text ("DEMO_GREETING="
                 ++ String "034"
                      ("Hello from the env_setup.py script!"
                       ++ String "034" (String "010" EmptyString)))%string])
  /\ (forall s s' ns unknown,
        parse_known_args (tokens_of p) s = (s', Return (ns, unknown)) ->
        Str.contains "010" (greeting_of (name ns)) = false
        /\ (encodable p (greeting_of (name ns)) = true ->
            option_map out (run p)
            = Some [Text ("DEMO_GREETING="
                          ++ String "034"
                               (greeting_of (name ns)
                                ++ String "034"
                                     (String "010" EmptyString)))%string])
        /\ (encodable p (greeting_of (name ns)) = false ->
            option_map out (run p) = Some []))
  /\ (forall s s',
        parse_known_args (tokens_of p) s = (s', Raise (SystemExit 2)) ->
        option_map out (run p) = Some []).
Proof.
  split; [|split].
  - intros He. now rewrite (run_default p He).
  - intros s s' ns unknown Hpk.
    destruct (run_returned p s s' ns unknown Hpk) as [Hok ->].
    split; [now apply greeting_one_line|].
    split; intros He.
    + now rewrite (printed_encodable p _ He).
    + now rewrite (printed_unencodable p _ He).
  - intros s s' Hpk. now destruct (run_rejected p s s' Hpk) as (m & ->).
Qed.

Lemma C3_stdout_witness :
  (parse_known_args (tokens_of (utf8_process (with_args "-v --name Ada"))) io0
   = (io0, Return ({| name := VStr "Ada" |}, ["-v"]))
   /\ encodable (utf8_process (with_args "-v --name Ada"))
        (greeting_of (VStr "Ada")) = true)
  /\ option_map out (run (utf8_process (with_args "-v --name Ada")))
     = Some [Text ("DEMO_GREETING="
                   ++ String "034"
                        ("Hello, Ada!"
                         ++ String "034" (String "010" EmptyString)))%string].
Proof.
  split; [split; reflexivity|].
  exact (proj1 (proj2 (proj1 (proj2
           (C3_stdout (utf8_process (with_args "-v --name Ada"))))
           io0 io0 {| name := VStr "Ada" |} ["-v"] eq_refl)) eq_refl).
Defined.

(** ** C4: standard error *)

(** C4, as stated, fails: for UBER_GLOBAL_COMMAND_ARGS="--name" argparse
    exits before the line is written; standard error holds the usage and
    the error message, and the line not once. *)
Lemma C4_stderr_counterexample :
  option_map err (run (utf8_process (with_args "--name")))
  = Some [format_usage {| COLUMNS := None; LINES := None; tty := None |};
          error_text (argument "--name" expected_one_argument)].
Proof. reflexivity. Qed.

(** C4, amended.  When UBER_GLOBAL_COMMAND_ARGS is absent or empty, and
    whenever [parse_known_args] returns and standard output can encode
    the greeting, the line [env_setup.py: Setting DEMO_GREETING] is
    written to standard error exactly once, as its only content, and the
    exit status is 0.  When [parse_known_args] returns and standard
    output cannot encode the greeting, standard error holds the
    traceback of [UnicodeEncodeError] instead and the status is 1.  When
    argparse rejects the tokens, standard error holds the usage and the
    error message instead and the status is 2. *)
Theorem C4_stderr (p : process) :
  (args_of p = EmptyString ->
   exists r,
     run p = Some r
     /\ err r = [Text ("env_setup.py: Setting DEMO_GREETING"
                       ++ String "010" EmptyString)%string]
     /\ returncode r = 0%Z)
  /\ (forall s s' ns unknown,
        parse_known_args (tokens_of p) s = (s', Return (ns, unknown)) ->
        exists r,
          run p = Some r
          /\ (encodable p (greeting_of (name ns)) = true ->
              err r = [Text ("env_setup.py: Setting DEMO_GREETING"
                             ++ String "010" EmptyString)%string]
              /\ returncode r = 0%Z)
          /\ (encodable p (greeting_of (name ns)) = false ->
              err r = [traceback UnicodeEncodeError]
              /\ returncode r = 1%Z))
  /\ (forall s s',
        parse_known_args (tokens_of p) s = (s', Raise (SystemExit 2)) ->
        exists r m,
          run p = Some r
          /\ err r = [format_usage (terminal_size_of p); error_text m]
          /\ returncode r = 2%Z).
Proof.
  split; [|split].
  - intros He. exists (completed default_greeting).
    split; [exact (run_default p He)|]. now split.
  - intros s s' ns unknown Hpk.
    destruct (run_returned p s s' ns unknown Hpk) as [_ Hrun].
    exists (printed p (greeting_of (name ns))). split; [exact Hrun|].
    split; intros He.
    + now rewrite (printed_encodable p _ He).
    + now rewrite (printed_unencodable p _ He).
  - intros s s' Hpk. destruct (run_rejected p s s' Hpk) as (m & Hrun).
    exists (rejected p m), m. split; [exact Hrun|]. now split.
Qed.

Lemma C4_stderr_witness :
  (parse_known_args (tokens_of (utf8_process (with_args "-v --name Ada"))) io0
   = (io0, Return ({| name := VStr "Ada" |}, ["-v"]))
   /\ encodable (utf8_process (with_args "-v --name Ada"))
        (greeting_of (VStr "Ada")) = true)
  /\ exists r,
       run (utf8_process (with_args "-v --name Ada")) = Some r
       /\ err r = [Text ("env_setup.py: Setting DEMO_GREETING"
                         ++ String "010" EmptyString)%string]
       /\ returncode r = 0%Z.
Proof.
  split; [split; reflexivity|].
  destruct (proj1 (proj2 (C4_stderr (utf8_process (with_args "-v --name Ada"))))
              io0 io0 {| name := VStr "Ada" |} ["-v"] eq_refl)
    as (r & Hrun & Henc & _).
  exists r. split; [exact Hrun|]. exact (Henc eq_refl).
Defined.

(** ** C5: tokens the parser does not recognise *)

(** C5, as stated, fails: in "--name --foo Ada" the token --foo is
    neither the name flag nor taken as its value, yet it is not ignored:
    argparse rejects the tokens and nothing is printed, where
    "--name Ada" prints the greeting for Ada. *)
Lemma C5_unrecognised_tokens_counterexample :
  foreign "--foo" = true
  /\ option_map out (run (utf8_process (with_args "--name --foo Ada")))
     = Some []
  /\ option_map out (run (utf8_process (with_args "--name Ada")))
     = Some [Text ("DEMO_GREETING="
                   ++ String "034"
                        ("Hello, Ada!"
                         ++ String "034" (String "010" EmptyString)))%string].
Proof. repeat split. Qed.

(** C5, amended: for UBER_GLOBAL_COMMAND_ARGS="--foo bar --name Ada --baz"
    standard output is exactly DEMO_GREETING="Hello, Ada!"; and a token
    that is none of the parser's is ignored wherever it does not
    directly follow one of --n, --na, --nam and --name: in the same
    process, the run without the token has the same standard output,
    standard error and exit status.  A token is none of the parser's
    when it does not start with a dash; or it is one dash, alone or
    followed by a character other than h and -; or it starts with two
    dashes, is not -- itself, and its text up to the first = is the
    start neither of --help nor of --name. *)
Theorem C5_unrecognised_tokens :
  (forall p,
     os_environ p !! VAR = Some "--foo bar --name Ada --baz" ->
     option_map out (run p)
     = Some [Text ("DEMO_GREETING="
                   ++ String "034"
                        ("Hello, Ada!"
                         ++ String "034" (String "010" EmptyString)))%string])
  /\ forall p1 p2 xs t ys,
       same_rest p1 p2 ->
       tokens_of p1 = xs ++ t :: ys -> tokens_of p2 = xs ++ ys ->
       foreign t = true ->
       (forall x, last xs = Some x ->
                  ~ In x ["--n"; "--na"; "--nam"; "--name"]) ->
       run p1 = run p2.
Proof.
  split.
  - intros p Hv.
    rewrite (run_of_tokens p (Parsed {| name := VStr "Ada" |})); [reflexivity|].
    rewrite (tokens_of_Some p _ Hv). intros s. reflexivity.
  - intros p1 p2 xs t ys Hrest H1 H2 Ht Hlast.
    apply (run_same_rest p1 p2 Hrest). intros s. rewrite H1, H2.
    apply parse_insert; [now rewrite <- foreign_unrecognised|].
    intros x Hx. destruct (awaits_value x) eqn:Haw; [|reflexivity].
    destruct (Hlast x Hx). now apply awaits_value_flag.
Qed.

Lemma C5_unrecognised_tokens_witness :
  (same_rest (utf8_process (with_args "--foo bar --name Ada --baz"))
     (utf8_process (with_args "bar --name Ada --baz"))
   /\ tokens_of (utf8_process (with_args "--foo bar --name Ada --baz"))
      = [] ++ "--foo" :: ["bar"; "--name"; "Ada"; "--baz"]
   /\ tokens_of (utf8_process (with_args "bar --name Ada --baz"))
      = [] ++ ["bar"; "--name"; "Ada"; "--baz"]
   /\ foreign "--foo" = true
   /\ (forall x, last ([] : list string) = Some x ->
                 ~ In x ["--n"; "--na"; "--nam"; "--name"]))
  /\ run (utf8_process (with_args "--foo bar --name Ada --baz"))
     = run (utf8_process (with_args "bar --name Ada --baz")).
Proof.
  assert (Hrest : same_rest
                    (utf8_process (with_args "--foo bar --name Ada --baz"))
                    (utf8_process (with_args "bar --name Ada --baz"))).
  { split; [|split; [reflexivity|reflexivity]].
    intros k Hk. cbn [os_environ utf8_process]. unfold with_args.
    now rewrite !lookup_singleton_ne. }
  split.
  - split; [exact Hrest|]. split; [reflexivity|]. split; [reflexivity|].
    split; [reflexivity|]. intros x Hx. discriminate Hx.
  - apply (proj2 C5_unrecognised_tokens _ _ [] "--foo"
             ["bar"; "--name"; "Ada"; "--baz"]);
      [exact Hrest|reflexivity|reflexivity|reflexivity|].
    intros x Hx. discriminate Hx.
Defined.

(** ** C6: absent or empty variable *)

(** C6: when UBER_GLOBAL_COMMAND_ARGS is absent or the empty string,
    standard output is exactly the line
    DEMO_GREETING="Hello from the env_setup.py script!", whatever the
    rest of the environment, the terminal and the encoding of standard
    output. *)
Theorem C6_absent_or_empty (p : process) :
  os_environ p !! VAR = None \/ os_environ p !! VAR = Some EmptyString ->
  option_map out (run p)
  = Some [Text ("DEMO_GREETING="
                ++ String "034"
                     ("Hello from the env_setup.py script!"
                      ++ String "034" (String "010" EmptyString)))%string].
Proof.
  intros H. rewrite run_default; [reflexivity|].
  unfold VAR in H. unfold args_of. now destruct H as [-> | ->].
Qed.

Lemma C6_absent_or_empty_witness :
  (os_environ (ascii_process ∅) !! VAR = None
   \/ os_environ (ascii_process ∅) !! VAR = Some EmptyString)
  /\ option_map out (run (ascii_process ∅))
     = Some [Text ("DEMO_GREETING="
                   ++ String "034"
                        ("Hello from the env_setup.py script!"
                         ++ String "034" (String "010" EmptyString)))%string].
Proof.
  split; [left; reflexivity|]. apply C6_absent_or_empty. left. reflexivity.
Defined.

(** ** C7: the name given after --name *)

(** C7: for UBER_GLOBAL_COMMAND_ARGS="--name World" standard output is
    exactly DEMO_GREETING="Hello, World!"; and in general, whenever
    parsing leaves a non-empty string in [args.name], the greeting is
    Hello, <name>! with that string as it is, neither escaped nor
    trimmed: the line DEMO_GREETING="Hello, <name>!" is the standard
    output when standard output can encode the name, and [print] raises
    [UnicodeEncodeError] on that very line when it cannot. *)
Theorem C7_name_value (p : process) :
  (os_environ p !! VAR = Some "--name World" ->
   option_map out (run p)
   = Some [Text ("DEMO_GREETING="
                 ++ String "034"
                      ("Hello, World!"
                       ++ String "034" (String "010" EmptyString)))%string])
  /\ (forall s s' ns unknown x,
        parse_known_args (tokens_of p) s = (s', Return (ns, unknown)) ->
        name ns = VStr x -> x <> EmptyString ->
        (encodable p x = true ->
         option_map out (run p)
         = Some [Text ("DEMO_GREETING="
                       ++ String "034"
                            (("Hello, " ++ x ++ "!")
                             ++ String "034"
                                  (String "010" EmptyString)))%string])
        /\ (encodable p x = false ->
            run p = Some {| out := [];
                            err := [traceback UnicodeEncodeError];
                            returncode := 1 |})).
Proof.
  split.
  - intros Hv.
    rewrite (run_of_tokens p (Parsed {| name := VStr "World" |}));
      [reflexivity|].
    rewrite (tokens_of_Some p _ Hv). intros s. reflexivity.
  - intros s s' ns unknown x Hpk Hname Hx.
    destruct (run_returned p s s' ns unknown Hpk) as [_ ->].
    rewrite Hname, (greeting_of_named x Hx).
    split; intros He.
    + rewrite printed_encodable by now rewrite encodable_hello.
      reflexivity.
    + rewrite printed_unencodable by now rewrite encodable_hello.
      reflexivity.
Qed.

Lemma C7_name_value_witness :
  (os_environ (ascii_process (with_args "--name World")) !! VAR
   = Some "--name World"
   /\ option_map out (run (ascii_process (with_args "--name World")))
      = Some [Text ("DEMO_GREETING="
                    ++ String "034"
                         ("Hello, World!"
                          ++ String "034" (String "010" EmptyString)))%string])
  /\ (parse_known_args
        (tokens_of (utf8_process (with_args "-x --name O'Neil;")))
        io0
      = (io0, Return ({| name := VStr "O'Neil;" |}, ["-x"]))
      /\ "O'Neil;" <> EmptyString
      /\ encodable (utf8_process (with_args "-x --name O'Neil;")) "O'Neil;"
         = true)
  /\ option_map out (run (utf8_process (with_args "-x --name O'Neil;")))
     = Some [Text ("DEMO_GREETING="
                   ++ String "034"
                        (("Hello, " ++ "O'Neil;" ++ "!")
                         ++ String "034" (String "010" EmptyString)))%string].
Proof.
  assert (Hne : "O'Neil;" <> EmptyString) by discriminate.
  split; [split; [reflexivity|]|split; [split; [reflexivity|split;
    [exact Hne|reflexivity]]|]].
  - exact (proj1 (C7_name_value (ascii_process (with_args "--name World")))
             eq_refl).
  - exact (proj1 (proj2 (C7_name_value
                           (utf8_process (with_args "-x --name O'Neil;")))
                    io0 io0 {| name := VStr "O'Neil;" |} ["-x"] "O'Neil;"
                    eq_refl eq_refl Hne) eq_refl).
Defined.

(** ** C8: the greeting is never empty *)

(** C8: whatever the value of UBER_GLOBAL_COMMAND_ARGS, the greeting
    between the quotes of a printed DEMO_GREETING line is not empty; and
    when [args.name] is falsy after parsing ([None], or a captured empty
    value as in --name=), the line printed holds the default greeting. *)
Theorem C8_greeting_non_empty (p : process) :
  (forall r greeting,
     run p = Some r ->
     out r = [Text ("DEMO_GREETING="
                    ++ String "034"
                         (greeting
                          ++ String "034" (String "010" EmptyString)))%string] ->
     greeting <> EmptyString)
  /\ (forall v ns unknown s s',
        os_environ p !! VAR = Some v ->
        parse_known_args (Str.split v) s = (s', Return (ns, unknown)) ->
        truthy (name ns) = false ->
        option_map out (run p)
        = Some [Text ("DEMO_GREETING="
                      ++ String "034"
                           ("Hello from the env_setup.py script!"
                            ++ String "034"
                                 (String "010" EmptyString)))%string]).
Proof.
  split.
  - intros r greeting Hr Hout.
    destruct (run_cases p) as (r0 & _ & _ & Hrun).
    rewrite Hrun in Hr. injection Hr as <-.
    destruct r0 as [ns| |m]; try discriminate.
    cbn [run_of] in Hout. unfold printed in Hout.
    destruct (encodable p (greeting_of (name ns))); [|discriminate Hout].
    cbn [completed out] in Hout.
    assert (Heq : greeting_of (name ns) = greeting)
      by (apply quoted_inj; congruence).
    pose proof (greeting_of_length (name ns)) as Hlen.
    intros ->. rewrite Heq in Hlen. simpl in Hlen. lia.
  - intros v ns unknown s s' Hv Hpk Hfalsy.
    rewrite <- (tokens_of_Some p v Hv) in Hpk.
    destruct (run_returned p s s' ns unknown Hpk) as [_ ->].
    now rewrite (greeting_of_falsy _ Hfalsy).
Qed.

Lemma C8_greeting_non_empty_witness :
  os_environ (utf8_process (with_args "--name=")) !! VAR = Some "--name="
  /\ parse_known_args (Str.split "--name=") io0
     = (io0, Return ({| name := VStr EmptyString |}, []))
  /\ truthy (VStr EmptyString) = false
  /\ option_map out (run (utf8_process (with_args "--name=")))
     = Some [Text ("DEMO_GREETING="
                   ++ String "034"
                        ("Hello from the env_setup.py script!"
                         ++ String "034" (String "010" EmptyString)))%string].
Proof.
  split; [reflexivity|]. split; [reflexivity|]. split; [reflexivity|].
  exact (proj2 (C8_greeting_non_empty (utf8_process (with_args "--name=")))
           "--name=" {| name := VStr EmptyString |} [] io0 io0
           eq_refl eq_refl eq_refl).
Defined.

(** ** C9: determinism *)




(** ** C10: abbreviations and the equals form *)

(** C10, as stated, fails: the equals form does not capture every value.
    For UBER_GLOBAL_COMMAND_ARGS="--name=--" argparse drops the value
    [--] and the default greeting is printed. *)
Lemma C10_abbreviations_counterexample :
  option_map out (run (utf8_process (with_args "--name=--")))
  = Some [Text ("DEMO_GREETING="
                ++ String "034"
                     ("Hello from the env_setup.py script!"
                      ++ String "034" (String "010" EmptyString)))%string].
Proof. reflexivity. Qed.

(** C10, amended: for UBER_GLOBAL_COMMAND_ARGS="--n Ada" standard output
    is exactly DEMO_GREETING="Hello, Ada!"; and the parser reads --n,
    --na and --nam as --name, with the value as the next token or after
    an = sign.  For each of the four spellings and every value that is
    one token, "<flag> <value>", the value not starting with a dash or
    being the single dash or a negative number, and "<flag>=<value>",
    the value other than --, make the greeting Hello, <value>!: its line
    is the standard output when standard output can encode the value,
    and [print] raises [UnicodeEncodeError] when it cannot. *)
Theorem C10_abbreviations :
  (forall p,
     os_environ p !! VAR = Some "--n Ada" ->
     option_map out (run p)
     = Some [Text ("DEMO_GREETING="
                   ++ String "034"
                        ("Hello, Ada!"
                         ++ String "034" (String "010" EmptyString)))%string])
  /\ forall p flag value,
       In flag ["--n"; "--na"; "--nam"; "--name"] -> token value ->
       (os_environ p !! VAR = Some (flag ++ " " ++ value)%string
        /\ positional value = true)
       \/ (os_environ p !! VAR = Some (flag ++ "=" ++ value)%string
           /\ value <> "--") ->
       (encodable p value = true ->
        option_map out (run p)
        = Some [Text ("DEMO_GREETING="
                      ++ String "034"
                           (("Hello, " ++ value ++ "!")
                            ++ String "034"
                                 (String "010" EmptyString)))%string])
       /\ (encodable p value = false ->
           run p = Some {| out := [];
                           err := [traceback UnicodeEncodeError];
                           returncode := 1 |}).
Proof.
  split.
  - intros p Hv.
    rewrite (run_of_tokens p (Parsed {| name := VStr "Ada" |})); [reflexivity|].
    rewrite (tokens_of_Some p _ Hv). intros s. reflexivity.
  - intros p flag value Hflag Hvalue Hform.
    assert (Hrun : run p = Some (printed p ("Hello, " ++ value ++ "!"))).
    { destruct Hform as [[Hv Hpos]|[Hv Hdd]];
        [now apply (run_flag_value p flag)|now apply (run_flag_eq p flag)]. }
    rewrite Hrun. split; intros He.
    + rewrite printed_encodable by now rewrite encodable_hello.
      reflexivity.
    + rewrite printed_unencodable by now rewrite encodable_hello.
      reflexivity.
Qed.

Lemma C10_abbreviations_witness :
  (In "--na" ["--n"; "--na"; "--nam"; "--name"] /\ token "Ada"
   /\ ((os_environ (utf8_process (with_args "--na=Ada")) !! VAR
        = Some ("--na" ++ " " ++ "Ada")%string
        /\ positional "Ada" = true)
       \/ (os_environ (utf8_process (with_args "--na=Ada")) !! VAR
           = Some ("--na" ++ "=" ++ "Ada")%string
           /\ "Ada" <> "--"))
   /\ encodable (utf8_process (with_args "--na=Ada")) "Ada" = true)
  /\ option_map out (run (utf8_process (with_args "--na=Ada")))
     = Some [Text ("DEMO_GREETING="
                   ++ String "034"
                        (("Hello, " ++ "Ada" ++ "!")
                         ++ String "034" (String "010" EmptyString)))%string].
Proof.
  assert (Htoken : token "Ada") by (split; [discriminate|reflexivity]).
  assert (Hform :
    (os_environ (utf8_process (with_args "--na=Ada")) !! VAR
     = Some ("--na" ++ " " ++ "Ada")%string
     /\ positional "Ada" = true)
    \/ (os_environ (utf8_process (with_args "--na=Ada")) !! VAR
        = Some ("--na" ++ "=" ++ "Ada")%string
        /\ "Ada" <> "--")).
  { right. split; [reflexivity|discriminate]. }
  split.
  - split; [right; now left|]. split; [exact Htoken|].
    split; [exact Hform|reflexivity].
  - exact (proj1 (proj2 C10_abbreviations
                    (utf8_process (with_args "--na=Ada")) "--na" "Ada"
                    (or_intror (or_introl eq_refl)) Htoken Hform) eq_refl).
Defined.

(** * Further properties *)

(** ** What [str.split] keeps *)

(** X1.  The tokens that [split] hands to the parser are not empty and
    hold no whitespace, and put end to end they are the characters of the
    value that are not whitespace, in order: splitting drops whitespace
    and nothing else. *)
Theorem X1_split_keeps_visible (s : string) :
  Forall token (Str.split s)
  /\ String.concat EmptyString (Str.split s) = visible s.
Proof.
  split; [apply split_tokens|]. unfold Str.split.
  now rewrite split_from_visible.
Qed.

(** X2.  Splitting undoes joining: tokens joined by single spaces split
    back into the same tokens. *)
Theorem X2_split_join (toks : list string) :
  Forall token toks -> Str.split (String.concat " " toks) = toks.
Proof.
  induction 1 as [|t toks Ht Htoks IH]; [reflexivity|].
  destruct toks as [|t' toks].
  - apply split_one, Ht.
  - change (String.concat " " (t :: t' :: toks))
      with (t ++ String " " (String.concat " " (t' :: toks)))%string.
    unfold Str.split. rewrite split_from_space by (apply Ht || reflexivity).
    change (Str.split_from EmptyString (String.concat " " (t' :: toks)))
      with (Str.split (String.concat " " (t' :: toks))).
    rewrite IH. destruct Ht as [Hne _]. simpl. now destruct t.
Qed.

Lemma X2_split_join_witness :
  Forall token ["--name"; "Ada"]
  /\ Str.split (String.concat " " ["--name"; "Ada"]) = ["--name"; "Ada"].
Proof.
  assert (H : Forall token ["--name"; "Ada"]).
  { repeat constructor; discriminate. }
  split; [exact H|]. exact (X2_split_join ["--name"; "Ada"] H).
Defined.

(** ** Values without a flag *)

(** X4.  A value made of whitespace only passes the test of [main] on
    the raw string, the parser is called on no token at all, and the run
    prints the default greeting. *)
Theorem X4_blank_value (p : process) (v : string) :
  os_environ p !! VAR = Some v -> all_space v = true ->
  (forall s, parse_known_args (Str.split v) s
             = (s, Return ({| name := VNone |}, [])))
  /\ run p = Some (completed default_greeting).
Proof.
  intros Hv Hsp. rewrite (split_all_space v Hsp). split; [reflexivity|].
  rewrite <- (printed_default p).
  apply (run_of_tokens p (Parsed {| name := VNone |})).
  rewrite (tokens_of_Some p v Hv), (split_all_space v Hsp). reflexivity.
Qed.

Lemma X4_blank_value_witness :
  (os_environ (ascii_process (with_args "   ")) !! VAR = Some "   "
   /\ all_space "   " = true)
  /\ run (ascii_process (with_args "   ")) = Some (completed default_greeting).
Proof.
  split; [split; reflexivity|].
  apply (X4_blank_value (ascii_process (with_args "   ")) "   ");
    reflexivity.
Defined.

(** X5.  When no token of the value starts with a dash, the parser
    returns every token in [unknown], in order, leaves [args.name] at
    [None], and the run prints the default greeting. *)
Theorem X5_bare_tokens (p : process) :
  Forall (fun t => no_dash t = true) (tokens_of p) ->
  (forall s, parse_known_args (tokens_of p) s
             = (s, Return ({| name := VNone |}, tokens_of p)))
  /\ run p = Some (completed default_greeting).
Proof.
  intros Hnd. split.
  - intros s.
    unfold parse_known_args, _parse_known_args, bind, try_ArgumentError.
    rewrite scan_arg_strings_classify. unfold mapM.
    rewrite (classify_no_dash (tokens_of p) s Hnd).
    rewrite indices_of_repeat_A. reflexivity.
  - rewrite <- (printed_default p).
    apply (run_of_tokens p (Parsed {| name := VNone |})).
    intros s. now apply parse_no_dash.
Qed.

Lemma X5_bare_tokens_witness :
  Forall (fun t => no_dash t = true)
    (tokens_of (ascii_process (with_args "foo bar")))
  /\ run (ascii_process (with_args "foo bar"))
     = Some (completed default_greeting).
Proof.
  assert (H : Forall (fun t => no_dash t = true)
                (tokens_of (ascii_process (with_args "foo bar")))).
  { repeat constructor. }
  split; [exact H|].
  exact (proj2 (X5_bare_tokens (ascii_process (with_args "foo bar")) H)).
Defined.

(** ** The separator and the order of the tokens *)

Lemma printing_parsed p r :
  (exists g, run_of p r = completed g) \/ run_of p r = crashed ->
  exists ns, r = Parsed ns.
Proof.
  destruct r as [ns| |m]; [now exists ns| |];
    intros [(g & Hg)|Hg]; discriminate Hg.
Qed.

(** X6.  Nothing that follows the separator [--] is looked at.  In one
    process, with the other environment variables, the encoding of
    standard output and the terminal the same, the run on tokens that go
    on after [--] is the run on the tokens up to and including it,
    whatever the later tokens are, name flags and help flags included. *)
Theorem X6_after_separator (p1 p2 : process) (xs ys : list string) :
  same_rest p1 p2 ->
  tokens_of p1 = xs ++ "--" :: ys -> tokens_of p2 = xs ++ ["--"] ->
  run p1 = run p2.
Proof.
  intros Hrest H1 H2. apply (run_same_rest p1 p2 Hrest). intros s.
  rewrite H1, H2. apply parse_separator.
Qed.

Lemma X6_after_separator_witness :
  (same_rest (utf8_process (with_args "--name Ada -- --name Bob -h"))
     (utf8_process (with_args "--name Ada --"))
   /\ tokens_of (utf8_process (with_args "--name Ada -- --name Bob -h"))
      = ["--name"; "Ada"] ++ "--" :: ["--name"; "Bob"; "-h"]
   /\ tokens_of (utf8_process (with_args "--name Ada --"))
      = ["--name"; "Ada"] ++ ["--"])
  /\ run (utf8_process (with_args "--name Ada -- --name Bob -h"))
     = run (utf8_process (with_args "--name Ada --")).
Proof.
  assert (Hrest : same_rest
            (utf8_process (with_args "--name Ada -- --name Bob -h"))
            (utf8_process (with_args "--name Ada --"))).
  { split; [|split; [reflexivity|reflexivity]].
    intros k Hk. cbn [os_environ utf8_process]. unfold with_args.
    now rewrite !lookup_singleton_ne. }
  split; [split; [exact Hrest|split; reflexivity]|].
  apply (X6_after_separator
           (utf8_process (with_args "--name Ada -- --name Bob -h"))
           (utf8_process (with_args "--name Ada --")) ["--name"; "Ada"]
           ["--name"; "Bob"; "-h"]); [exact Hrest|reflexivity|reflexivity].
Defined.

(** X7.  The last name wins.  Let the tokens of the second process be
    those of the first followed by a name flag and a value that does not
    start with a dash, with no [--] among the first tokens.  If the first
    run gets as far as printing its greeting, the second prints the
    greeting for the added value when its standard output can encode
    the value, and ends on [UnicodeEncodeError] when it cannot; if the
    first run shows help, so does the second; if the first is rejected,
    the second is rejected with the same message. *)
Theorem X7_last_name_wins (p1 p2 : process) (flag value : string) :
  tokens_of p2 = tokens_of p1 ++ [flag; value] ->
  Forall (fun x => x <> "--") (tokens_of p1) -> In flag name_flags ->
  no_dash value = true ->
  ((exists g, run p1 = Some (completed g)) \/ run p1 = Some crashed ->
   (encodable p2 value = true ->
    run p2 = Some (completed ("Hello, " ++ value ++ "!")))
   /\ (encodable p2 value = false -> run p2 = Some crashed))
  /\ (run p1 = Some (help_shown p1) -> run p2 = Some (help_shown p2))
  /\ (forall m, run p1 = Some (rejected p1 m) ->
                run p2 = Some (rejected p2 m)).
Proof.
  intros H2 Hxs Hflag Hv.
  assert (Htok : token value).
  { pose proof (split_tokens (args_of p2)) as Ht. fold (tokens_of p2) in Ht.
    rewrite H2 in Ht. apply Forall_app in Ht as [_ Ht].
    inversion Ht as [|? ? _ Ht']. now inversion Ht'. }
  destruct (run_cases p1) as (r & _ & Hp & Hr1).
  assert (Hr2 : run p2
                = Some (run_of p2 match r with
                                  | Parsed _ => Parsed {| name := VStr value |}
                                  | _ => r
                                  end)).
  { apply run_of_tokens. rewrite H2. now apply parse_append_flag. }
  rewrite Hr1, Hr2. split; [|split].
  - intros Hprint.
    destruct (printing_parsed p1 r) as (ns & ->).
    { destruct Hprint as [(g & Hg)|Hg]; [left; exists g|right]; congruence. }
    cbn [run_of name]. rewrite (greeting_of_token value Htok).
    split; intros He.
    + now rewrite printed_encodable by now rewrite encodable_hello.
    + now rewrite printed_unencodable by now rewrite encodable_hello.
  - intros Hh. destruct r as [ns| |m]; [|reflexivity|discriminate Hh].
    exfalso. cbn [run_of] in Hh. unfold printed in Hh.
    destruct (encodable p1 _); discriminate Hh.
  - intros m Hm. destruct r as [ns| |m']; [|discriminate Hm|].
    + exfalso. cbn [run_of] in Hm. unfold printed in Hm.
      destruct (encodable p1 _); discriminate Hm.
    + cbn [run_of] in *. injection Hm as Hm. inversion Hm. reflexivity.
Qed.

Lemma X7_last_name_wins_witness :
  (tokens_of (utf8_process (with_args "--name Ada x --na Bob"))
   = tokens_of (utf8_process (with_args "--name Ada x")) ++ ["--na"; "Bob"]
   /\ Forall (fun x => x <> "--")
        (tokens_of (utf8_process (with_args "--name Ada x")))
   /\ In "--na" name_flags /\ no_dash "Bob" = true
   /\ ((exists g, run (utf8_process (with_args "--name Ada x"))
                  = Some (completed g))
       \/ run (utf8_process (with_args "--name Ada x")) = Some crashed)
   /\ encodable (utf8_process (with_args "--name Ada x --na Bob")) "Bob"
      = true)
  /\ run (utf8_process (with_args "--name Ada x --na Bob"))
     = Some (completed ("Hello, " ++ "Bob" ++ "!")).
Proof.
  assert (H2 : tokens_of (utf8_process (with_args "--name Ada x --na Bob"))
               = tokens_of (utf8_process (with_args "--name Ada x"))
                 ++ ["--na"; "Bob"]) by reflexivity.
  assert (Hxs : Forall (fun x => x <> "--")
                  (tokens_of (utf8_process (with_args "--name Ada x")))).
  { repeat constructor; discriminate. }
  assert (Hflag : In "--na" name_flags) by (simpl; auto).
  assert (Hg : (exists g, run (utf8_process (with_args "--name Ada x"))
                          = Some (completed g))
               \/ run (utf8_process (with_args "--name Ada x"))
                  = Some crashed).
  { left. exists "Hello, Ada!". reflexivity. }
  split; [auto 8|].
  exact (proj1 (proj1 (X7_last_name_wins
                         (utf8_process (with_args "--name Ada x"))
                         (utf8_process (with_args "--name Ada x --na Bob"))
                         "--na" "Bob" H2 Hxs Hflag eq_refl) Hg) eq_refl).
Defined.

(** X8.  A name flag as the last token never gives a greeting: when the
    tokens end with --name or one of its abbreviations and no [--]
    comes before it, the run shows help or is rejected with status 2. *)
Theorem X8_name_flag_last (p : process) (xs : list string) (flag : string) :
  tokens_of p = xs ++ [flag] ->
  Forall (fun x => x <> "--") xs -> In flag name_flags ->
  run p = Some (help_shown p)
  \/ exists m, run p = Some (rejected p m).
Proof.
  intros Hv Hxs Hflag.
  destruct (run_cases p) as (r & _ & Hp & ->). rewrite Hv in Hp.
  pose proof (parse_flag_last xs flag r Hxs Hflag Hp) as Hnp.
  destruct r as [ns| |m]; [now destruct (Hnp ns)|now left|right].
  now exists m.
Qed.

Lemma X8_name_flag_last_witness :
  (tokens_of (utf8_process (with_args "--name Ada x --nam"))
   = ["--name"; "Ada"; "x"] ++ ["--nam"]
   /\ Forall (fun x => x <> "--") ["--name"; "Ada"; "x"]
   /\ In "--nam" name_flags)
  /\ (run (utf8_process (with_args "--name Ada x --nam"))
      = Some (help_shown (utf8_process (with_args "--name Ada x --nam")))
      \/ exists m, run (utf8_process (with_args "--name Ada x --nam"))
                   = Some (rejected
                             (utf8_process (with_args "--name Ada x --nam"))
                             m)).
Proof.
  assert (Hxs : Forall (fun x => x <> "--") ["--name"; "Ada"; "x"]).
  { repeat constructor; discriminate. }
  assert (Hflag : In "--nam" name_flags) by (simpl; auto).
  split; [auto|].
  exact (X8_name_flag_last (utf8_process (with_args "--name Ada x --nam"))
           ["--name"; "Ada"; "x"] "--nam" eq_refl Hxs Hflag).
Defined.

(** ** Which strings the parser takes for what *)

(** X9.  The spellings of the name flag are exactly --n, --na, --nam
    and --name: the parser reads a string as the [--name] option that
    takes the next string for its value if and only if it is one of
    these four. *)
Theorem X9_name_flag_spellings (x : string) :
  (exists option_string,
     forall s, _parse_optional x s
               = (s, Return (Some (Some _StoreAction, option_string, None))))
  <-> In x ["--n"; "--na"; "--nam"; "--name"].
Proof.
  split.
  - intros (os & Hx). apply awaits_value_flag. unfold awaits_value.
    now rewrite Hx.
  - intros Hx. exists "--name". intros s. now apply _parse_optional_flag.
Qed.

(** X10.  The value after the name flag.  For a value of two tokens, a
    name flag and one more, the second token is taken as the name when
    it does not start with a dash, is the single dash, or looks like a
    negative number: the greeting for it is printed when standard output
    can encode it, and the run ends on [UnicodeEncodeError] with status
    1 when it cannot.  Any other second token has the run rejected with
    status 2 and no greeting. *)
Theorem X10_value_after_name_flag (p : process) (flag value : string) :
  tokens_of p = [flag; value] -> In flag name_flags ->
  (positional value = true ->
   (encodable p value = true ->
    run p = Some (completed ("Hello, " ++ value ++ "!")))
   /\ (encodable p value = false -> run p = Some crashed))
  /\ (positional value = false ->
      exists m, run p = Some (rejected p m)).
Proof.
  intros Hv Hflag.
  assert (Htok : token value).
  { pose proof (split_tokens (args_of p)) as Ht. fold (tokens_of p) in Ht.
    rewrite Hv in Ht. inversion Ht as [|? ? _ Ht']. now inversion Ht'. }
  split; intros Hpos.
  - rewrite (run_of_tokens p (Parsed {| name := VStr value |}))
      by (intros s; rewrite Hv; now apply parse_flag_positional).
    cbn [run_of name]. rewrite (greeting_of_token value Htok).
    split; intros He.
    + now rewrite printed_encodable by now rewrite encodable_hello.
    + now rewrite printed_unencodable by now rewrite encodable_hello.
  - destruct (parse_flag_option flag value Hflag Htok Hpos) as (m & Hm).
    exists m. apply (run_of_tokens p (Rejected m)).
    intros s. rewrite Hv. apply Hm.
Qed.

Lemma X10_value_after_name_flag_witness :
  (tokens_of (ascii_process (with_args "--name -5")) = ["--name"; "-5"]
   /\ In "--name" name_flags /\ positional "-5" = true
   /\ encodable (ascii_process (with_args "--name -5")) "-5" = true)
  /\ run (ascii_process (with_args "--name -5"))
     = Some (completed ("Hello, " ++ "-5" ++ "!")).
Proof.
  assert (Hflag : In "--name" name_flags) by (simpl; auto).
  split; [auto|].
  exact (proj1 (proj1 (X10_value_after_name_flag
                         (ascii_process (with_args "--name -5"))
                         "--name" "-5" eq_refl Hflag) eq_refl) eq_refl).
Defined.

(** X11.  A token that starts with [--=] could be the start of both
    --help and --name.  When one stands before any [--], the run is
    rejected with status 2 whatever the other tokens are: the strings
    are all classified before any option is acted on, so not even an
    earlier help flag is honoured. *)
Theorem X11_ambiguous_token (p : process) (xs ys : list string) (t : string) :
  tokens_of p = xs ++ t :: ys ->
  Forall (fun x => x <> "--") xs -> Str.startswith t "--=" = true ->
  exists m, run p = Some (rejected p m).
Proof.
  intros Hv Hxs Ht. destruct (classify_ambiguous xs t ys Hxs Ht) as (m & Hm).
  exists m. apply (run_of_tokens p (Rejected m)).
  intros s. rewrite Hv. unfold parse, try_ArgumentError, bind.
  now rewrite Hm.
Qed.

Lemma X11_ambiguous_token_witness :
  (tokens_of (utf8_process (with_args "-h --=x --name Ada"))
   = ["-h"] ++ "--=x" :: ["--name"; "Ada"]
   /\ Forall (fun x => x <> "--") ["-h"]
   /\ Str.startswith "--=x" "--=" = true)
  /\ exists m, run (utf8_process (with_args "-h --=x --name Ada"))
               = Some (rejected
                         (utf8_process (with_args "-h --=x --name Ada")) m).
Proof.
  assert (Hxs : Forall (fun x => x <> "--") ["-h"]).
  { repeat constructor; discriminate. }
  split; [auto|].
  exact (X11_ambiguous_token (utf8_process (with_args "-h --=x --name Ada"))
           ["-h"] ["--name"; "Ada"] "--=x" eq_refl Hxs eq_refl).
Defined.

(** X12.  A help flag after tokens that are in order.  Let the tokens
    of the second process be those of the first followed by -h, --help
    or an abbreviation of --help, and then by any tokens of which none
    starts with [--=].  If the first run gets as far as printing its
    greeting and has no [--] among its tokens, the second run shows the
    help message on standard output and ends with status 0, whatever
    follows the help flag. *)
Theorem X12_help_flag (p1 p2 : process) (h : string) (ys : list string) :
  tokens_of p2 = tokens_of p1 ++ h :: ys ->
  Forall (fun x => x <> "--") (tokens_of p1) -> In h help_flags ->
  Forall (fun t => Str.startswith t "--=" = false) ys ->
  (exists g, run p1 = Some (completed g)) \/ run p1 = Some crashed ->
  run p2 = Some (help_shown p2).
Proof.
  intros H2 Hxs Hh Hys Hprint.
  destruct (run_cases p1) as (r & _ & Hp & Hr1).
  destruct (printing_parsed p1 r) as (ns & ->).
  { rewrite Hr1 in Hprint.
    destruct Hprint as [(g & Hg)|Hg]; [left; exists g|right]; congruence. }
  apply (run_of_tokens p2 HelpShown). intros s. rewrite H2.
  now apply (parse_help_after (tokens_of p1) h ys ns).
Qed.

Lemma X12_help_flag_witness :
  (tokens_of (utf8_process (with_args "--name Ada foo --he --name"))
   = tokens_of (utf8_process (with_args "--name Ada foo"))
     ++ "--he" :: ["--name"]
   /\ Forall (fun x => x <> "--")
        (tokens_of (utf8_process (with_args "--name Ada foo")))
   /\ In "--he" help_flags
   /\ Forall (fun t => Str.startswith t "--=" = false) ["--name"]
   /\ ((exists g, run (utf8_process (with_args "--name Ada foo"))
                  = Some (completed g))
       \/ run (utf8_process (with_args "--name Ada foo")) = Some crashed))
  /\ run (utf8_process (with_args "--name Ada foo --he --name"))
     = Some (help_shown
               (utf8_process (with_args "--name Ada foo --he --name"))).
Proof.
  assert (Hxs : Forall (fun x => x <> "--")
                  (tokens_of (utf8_process (with_args "--name Ada foo")))).
  { repeat constructor; discriminate. }
  assert (Hh : In "--he" help_flags) by (simpl; auto).
  assert (Hys : Forall (fun t => Str.startswith t "--=" = false) ["--name"]).
  { repeat constructor. }
  assert (Hg : (exists g, run (utf8_process (with_args "--name Ada foo"))
                          = Some (completed g))
               \/ run (utf8_process (with_args "--name Ada foo"))
                  = Some crashed).
  { left. exists "Hello, Ada!". reflexivity. }
  split; [auto 6|].
  exact (X12_help_flag (utf8_process (with_args "--name Ada foo"))
           (utf8_process (with_args "--name Ada foo --he --name"))
           "--he" ["--name"] eq_refl Hxs Hh Hys Hg).
Defined.

(** ** The output tells the name *)

(** X13.  The output tells the name.  Take two runs on a name flag and
    an accepted value each.  When standard output can encode the value
    of the first and the two runs agree in what they print, they were
    given the same value; and the first run never prints the line of
    the default greeting. *)
Theorem X13_output_tells_name (p1 p2 : process)
    (flag1 flag2 value1 value2 : string) :
  tokens_of p1 = [flag1; value1] -> tokens_of p2 = [flag2; value2] ->
  In flag1 name_flags -> In flag2 name_flags ->
  positional value1 = true -> positional value2 = true ->
  (encodable p1 value1 = true -> run p1 = run p2 -> value1 = value2)
  /\ run p1 <> Some (completed default_greeting).
Proof.
  intros H1 H2 Hf1 Hf2 Hv1 Hv2.
  assert (Hr : forall p flag value,
    tokens_of p = [flag; value] ->
    In flag name_flags -> positional value = true ->
    run p = Some (printed p ("Hello, " ++ value ++ "!"))).
  { intros p flag value Hv Hflag Hpos.
    assert (Htok : token value).
    { pose proof (split_tokens (args_of p)) as Ht. fold (tokens_of p) in Ht.
      rewrite Hv in Ht. inversion Ht as [|? ? _ Ht']. now inversion Ht'. }
    rewrite <- (greeting_of_token value Htok).
    apply (run_of_tokens p (Parsed {| name := VStr value |})).
    intros s. rewrite Hv. now apply parse_flag_positional. }
  rewrite (Hr p1 flag1 value1 H1 Hf1 Hv1), (Hr p2 flag2 value2 H2 Hf2 Hv2).
  split.
  - intros He H. rewrite printed_encodable in H
      by now rewrite encodable_hello.
    unfold printed in H.
    destruct (encodable p2 _); [|discriminate H].
    apply hello_inj, completed_inj. congruence.
  - intros H. unfold printed in H.
    destruct (encodable p1 _); [|discriminate H].
    assert (Heq : completed ("Hello, " ++ value1 ++ "!")
                  = completed default_greeting) by congruence.
    apply completed_inj in Heq. discriminate Heq.
Qed.

Lemma X13_output_tells_name_witness :
  (tokens_of (utf8_process (with_args "--name Ada")) = ["--name"; "Ada"]
   /\ tokens_of (utf8_process (with_args "--n  Bob")) = ["--n"; "Bob"]
   /\ In "--name" name_flags /\ In "--n" name_flags
   /\ positional "Ada" = true /\ positional "Bob" = true)
  /\ run (utf8_process (with_args "--name Ada"))
     <> Some (completed default_greeting).
Proof.
  assert (Hf1 : In "--name" name_flags) by (simpl; auto).
  assert (Hf2 : In "--n" name_flags) by (simpl; auto).
  split; [auto 10|].
  exact (proj2 (X13_output_tells_name (utf8_process (with_args "--name Ada"))
                  (utf8_process (with_args "--n  Bob")) "--name" "--n"
                  "Ada" "Bob" eq_refl eq_refl Hf1 Hf2 eq_refl eq_refl)).
Defined.

(** ** Where the name comes from *)

(** X14.  The equals form of the name flag.  The parser reads a string
    as the [--name] option carrying the value [e] in the same string if
    and only if the string is --n, --na, --nam or --name followed by
    [=] and [e]. *)
Theorem X14_name_flag_equals_form (a e : string) :
  (exists option_string,
     forall s, _parse_optional a s
               = (s, Return (Some (Some _StoreAction, option_string, Some e))))
  <-> exists flag, In flag ["--n"; "--na"; "--nam"; "--name"]
                   /\ a = (flag ++ "=" ++ e)%string.
Proof.
  split.
  - intros (os & Ha). exact (store_explicit_flag a io0 io0 os e (Ha io0)).
  - intros (flag & Hf & ->). exists "--name". intros s.
    now apply _parse_optional_flag_eq.
Qed.

(** X15.  Where the name comes from.  Whenever a run prints a greeting
    other than the default one, the greeting is Hello, x! for a
    non-empty x that the tokens of the value name: either some token is
    a name flag followed by [=] and x, or a token that is a name flag is
    directly followed by the token x. *)
Theorem X15_greeting_names_a_token (p : process) (g : string) :
  run p = Some (completed g) -> g <> default_greeting ->
  exists x, x <> EmptyString /\ g = ("Hello, " ++ x ++ "!")%string
            /\ named_by (tokens_of p) x.
Proof.
  intros Hrun Hg.
  destruct (run_cases p) as (r & _ & Hp & Hr). rewrite Hr in Hrun.
  destruct r as [ns| |]; [|discriminate Hrun..].
  cbn [run_of] in Hrun. unfold printed in Hrun.
  destruct (encodable p _); [|discriminate Hrun].
  assert (Heq : completed (greeting_of (name ns)) = completed g)
    by congruence.
  apply completed_inj in Heq. subst g. clear Hrun.
  destruct (parse_named _ ns (Hp io0)) as [->|(x & Hx & Hby)];
    [now destruct Hg|].
  rewrite _get_values_store in Hx. unfold greeting_of in *.
  destruct (Str.eqb x "--"); rewrite Hx in *; [now destruct Hg|].
  cbn [truthy format] in *. unfold Str.eqb in *.
  case_bool_decide as Hne; [now destruct Hg|].
  now exists x.
Qed.

Lemma X15_greeting_names_a_token_witness :
  (run (utf8_process (with_args "--foo --nam=Ada bar"))
   = Some (completed "Hello, Ada!")
   /\ "Hello, Ada!" <> default_greeting)
  /\ exists x, x <> EmptyString /\ "Hello, Ada!" = ("Hello, " ++ x ++ "!")%string
               /\ named_by
                    (tokens_of (utf8_process (with_args "--foo --nam=Ada bar")))
                    x.
Proof.
  assert (Hg : "Hello, Ada!" <> default_greeting) by discriminate.
  split; [split; [reflexivity|exact Hg]|].
  exact (X15_greeting_names_a_token
           (utf8_process (with_args "--foo --nam=Ada bar"))
           "Hello, Ada!" eq_refl Hg).
Defined.

(** ** Tokens that are none of the parser's, by the parser *)

(** X16.  The tokens described as none of the parser's are those that
    [_parse_optional] takes for a positional or for an option string
    without an action, the separator [--] apart: the description by the
    characters of the token and the reading by the parser agree on
    every string. *)
Theorem X16_foreign_tokens (t : string) :
  foreign t = true
  <-> t <> "--"
      /\ ((forall s, _parse_optional t s = (s, Return None))
          \/ exists option_string explicit_arg,
               forall s, _parse_optional t s
                         = (s, Return (Some (None, option_string,
                                             explicit_arg)))).
Proof.
  rewrite foreign_unrecognised. unfold unrecognised. split.
  - intros [Hdd Hp]%andb_true_iff. split.
    { intros ->. discriminate Hdd. }
    destruct (_parse_optional t io0) as [s0' [r| |]] eqn:H0;
      try discriminate Hp.
    pose proof (_parse_optional_Return t io0 s0' r H0) as Hr.
    destruct r as [[[[act|] os] e]|]; [discriminate Hp| |now left].
    right. now exists os, e.
  - intros [Hdd [Hp|(os & e & Hp)]]; rewrite Hp;
      unfold Str.eqb; now rewrite bool_decide_eq_false_2.
Qed.
